(** * ExpressServerTask: lifecycle and restart orchestration

    A shallow embedding of [lib/tasks/server/express-server.js].

    The fields of the task object are the record [task]; every method of
    the class is a function of the same name over that record.  Calls to
    collaborators (express, http(s), the project, the ui, the emitter) are
    recorded, in order, in the [trace] field.  Methods that return a
    promise return an [outcome]: the state reached at the end of the
    synchronous part together with what the promise is waiting for and the
    reaction that runs when the awaited event occurs.  The event loop that
    delivers those events, the debounce timer and the reactions registered
    on [serverRestartPromise] are the record [world] and its [step]. *)

From Stdlib Require Import String Ascii ZArith List Lia Bool.
From stdpp Require Import gmap strings list fin_maps pretty.

(** ** Values exchanged with the collaborators *)

(** Errors: the two classes the source constructs itself, and whatever a
    collaborator throws or rejects with. *)
Inductive error : Type :=
| TypeError (message : string)
| SilentError (message : string)
| ExternalError (message : string).

Inductive result (A : Type) : Type :=
| Fulfilled (v : A)
| Rejected (e : error).
Arguments Fulfilled {A} v.
Arguments Rejected {A} e.

(** An entry of an express application's handler stack. *)
Inductive middleware : Type :=
| Compression                      (* require('compression')() *)
| ServerModule                     (* the export of ./server, mounted as is *)
| Mounted (label : string).        (* mounted by a factory or an addon hook *)

(** What calling a collaborator's function does: the handlers it mounts on
    the application it is given, and how the call completes. *)
Inductive completion : Type :=
| Returns                          (* returns a plain value *)
| Throws (e : error)               (* throws synchronously *)
| ReturnsPromise.                  (* returns a promise, settled later *)

Record callable : Type := {
  mounts : list middleware;
  completes : completion
}.

(** What [project.require(serverRoot)] yields. *)
Inductive server_export : Type :=
| RequireThrows (e : error)
| NotAFunction
| Function (length : nat) (body : callable).

Record addon : Type := {
  addon_name : string;
  serverMiddleware : option callable
}.

Record start_options : Type := {
  host : option string;
  port : Z;
  ssl : bool;
  sslKey : string;
  sslCert : string;
  rootURL : option string;
  baseURL : option string;
  opt_httpServer : option nat      (* options.httpServer *)
}.

Record application : Type := {
  app_id : nat;
  stack : list middleware
}.

(** The collaborators whose functions the task calls. *)
Inductive collaborator : Type :=
| TheServer                        (* the export of ./server *)
| TheAddon (a : addon).

(** What a pending promise is waiting for. *)
Inductive wait_on : Type :=
| Microtask                        (* a then/catch/finally reaction is queued *)
| ServerClose (server : nat)       (* the callback given to httpServer.close *)
| ServerListen (server : nat)      (* 'listening' or 'error' of the server *)
| Thenable (from : collaborator).  (* a promise returned by a collaborator *)

(** Calls made to the collaborators, and the events they send back. *)
Inductive effect : Type :=
| Express (app : nat)
| Use (app : nat) (m : middleware)
| CreateServer (server app : nat)
| CreateHttpsServer (server : nat) (key cert : string) (app : nat)
| Listen (server : nat) (port : Z) (host : option string)
| Close (server : nat)
| Destroy (socket : nat)
| InitializeAddons
| InvokeServer (app : nat) (options : start_options)
| InvokeAddon (a : addon) (app : nat) (options : start_options)
| Emit (name : string)
| UiWriteLine (line : string)
| UiWriteError (e : error)
| PurgeCache (root : string)       (* require.cache is read and purged *)
| Reply (w : wait_on) (err : option error).

(** ** The environment of the process

    What the source reads from its constructor options, from [path] and
    from the file system.  None of it is changed by the task. *)
Record environment : Type := {
  serverRoot : string;
  serverRestartDelayTime : option Z;
  addons : list addon;                    (* project.addons *)
  existsSync : string -> bool;
  readFileSync : string -> string;
  path_resolve : string -> string;
  path_sep : ascii;
  cleanBaseURL : option string -> string
}.

(** ** The task object *)
Record task : Type := {
  app : option application;               (* this.app *)
  httpServer : option nat;                (* this.httpServer *)
  sockets : gmap nat nat;                 (* this.sockets *)
  nextSocketId : nat;                     (* this.nextSocketId *)
  startOptions : start_options;           (* this.startOptions *)
  serverRestartPromise : option nat;      (* this.serverRestartPromise *)
  require_cache : gmap string nat;        (* require.cache *)
  server_module : option server_export;   (* ./server as it is on disk *)
  fresh : nat;                            (* identities of created objects *)
  trace : list effect
}.

Definition set_app (v : option application) (s : task) : task :=
  {| app := v; httpServer := httpServer s; sockets := sockets s;
     nextSocketId := nextSocketId s; startOptions := startOptions s;
     serverRestartPromise := serverRestartPromise s;
     require_cache := require_cache s; server_module := server_module s;
     fresh := fresh s; trace := trace s |}.

Definition set_httpServer (v : option nat) (s : task) : task :=
  {| app := app s; httpServer := v; sockets := sockets s;
     nextSocketId := nextSocketId s; startOptions := startOptions s;
     serverRestartPromise := serverRestartPromise s;
     require_cache := require_cache s; server_module := server_module s;
     fresh := fresh s; trace := trace s |}.

Definition set_sockets (v : gmap nat nat) (s : task) : task :=
  {| app := app s; httpServer := httpServer s; sockets := v;
     nextSocketId := nextSocketId s; startOptions := startOptions s;
     serverRestartPromise := serverRestartPromise s;
     require_cache := require_cache s; server_module := server_module s;
     fresh := fresh s; trace := trace s |}.

Definition set_nextSocketId (v : nat) (s : task) : task :=
  {| app := app s; httpServer := httpServer s; sockets := sockets s;
     nextSocketId := v; startOptions := startOptions s;
     serverRestartPromise := serverRestartPromise s;
     require_cache := require_cache s; server_module := server_module s;
     fresh := fresh s; trace := trace s |}.

Definition set_startOptions (v : start_options) (s : task) : task :=
  {| app := app s; httpServer := httpServer s; sockets := sockets s;
     nextSocketId := nextSocketId s; startOptions := v;
     serverRestartPromise := serverRestartPromise s;
     require_cache := require_cache s; server_module := server_module s;
     fresh := fresh s; trace := trace s |}.

Definition set_serverRestartPromise (v : option nat) (s : task) : task :=
  {| app := app s; httpServer := httpServer s; sockets := sockets s;
     nextSocketId := nextSocketId s; startOptions := startOptions s;
     serverRestartPromise := v;
     require_cache := require_cache s; server_module := server_module s;
     fresh := fresh s; trace := trace s |}.

Definition set_require_cache (v : gmap string nat) (s : task) : task :=
  {| app := app s; httpServer := httpServer s; sockets := sockets s;
     nextSocketId := nextSocketId s; startOptions := startOptions s;
     serverRestartPromise := serverRestartPromise s;
     require_cache := v; server_module := server_module s;
     fresh := fresh s; trace := trace s |}.

Definition set_server_module (v : option server_export) (s : task) : task :=
  {| app := app s; httpServer := httpServer s; sockets := sockets s;
     nextSocketId := nextSocketId s; startOptions := startOptions s;
     serverRestartPromise := serverRestartPromise s;
     require_cache := require_cache s; server_module := v;
     fresh := fresh s; trace := trace s |}.

Definition set_fresh (v : nat) (s : task) : task :=
  {| app := app s; httpServer := httpServer s; sockets := sockets s;
     nextSocketId := nextSocketId s; startOptions := startOptions s;
     serverRestartPromise := serverRestartPromise s;
     require_cache := require_cache s; server_module := server_module s;
     fresh := v; trace := trace s |}.

(** Appends one entry to the trace. *)
Definition record (e : effect) (s : task) : task :=
  {| app := app s; httpServer := httpServer s; sockets := sockets s;
     nextSocketId := nextSocketId s; startOptions := startOptions s;
     serverRestartPromise := serverRestartPromise s;
     require_cache := require_cache s; server_module := server_module s;
     fresh := fresh s; trace := trace s ++ [e] |}.

Definition with_httpServer (v : option nat) (o : start_options) : start_options :=
  {| host := host o; port := port o; ssl := ssl o; sslKey := sslKey o;
     sslCert := sslCert o; rootURL := rootURL o; baseURL := baseURL o;
     opt_httpServer := v |}.

(** ** Promises

    [Threw s e]: the call threw [e] synchronously, leaving state [s].
    [Settled s r]: the call returned, in state [s], a value or a promise
    that is already settled with [r].
    [Pending s w k]: the call returned, in state [s], a promise waiting
    for [w]; when that event occurs with [err] and the task is in state
    [s'], the promise goes on as [k err s']. *)
Inductive outcome (A : Type) : Type :=
| Threw (s : task) (e : error)
| Settled (s : task) (r : result A)
| Pending (s : task) (w : wait_on) (k : option error -> task -> outcome A).
Arguments Threw {A} s e.
Arguments Settled {A} s r.
Arguments Pending {A} s w k.

(** The state at the end of the synchronous part. *)
Definition state_of {A} (o : outcome A) : task :=
  match o with
  | Threw s _ => s
  | Settled s _ => s
  | Pending s _ _ => s
  end.

(** A statement executed right after the call returned. *)
Definition and_then {A} (f : task -> task) (o : outcome A) : outcome A :=
  match o with
  | Threw s e => Threw s e
  | Settled s r => Settled (f s) r
  | Pending s w k => Pending (f s) w k
  end.

(** A reaction that throws rejects the promise derived from it. *)
Definition caught {A} (o : outcome A) : outcome A :=
  match o with
  | Threw s e => Settled s (Rejected e)
  | _ => o
  end.

(** Registers a reaction on a promise: once the promise is settled the
    reaction is queued as a microtask, it never runs synchronously. *)
Fixpoint react {A B} (o : outcome A) (f : result A -> task -> outcome B) : outcome B :=
  match o with
  | Threw s e => Threw s e
  | Settled s r => Pending s Microtask (fun _ s' => caught (f r s'))
  | Pending s w k => Pending s w (fun err s' => react (k err s') f)
  end.

Definition then_ {A B} (o : outcome A) (f : A -> task -> outcome B) : outcome B :=
  react o (fun r s =>
    match r with
    | Fulfilled v => f v s
    | Rejected e => Settled s (Rejected e)
    end).

Definition catch_ {A} (o : outcome A) (h : error -> task -> outcome A) : outcome A :=
  react o (fun r s =>
    match r with
    | Fulfilled v => Settled s (Fulfilled v)
    | Rejected e => h e s
    end).

Definition finally_ {A} (o : outcome A) (f : task -> task) : outcome A :=
  react o (fun r s => Settled (f s) r).

(** Waits for an event of a collaborator; its arrival is recorded. *)
Definition await {A} (s : task) (w : wait_on)
  (k : option error -> task -> outcome A) : outcome A :=
  Pending s w (fun err s' => k err (record (Reply w err) s')).

(** Feeds a promise the events it waits for, one after the other, with no
    other activity of the task in between. *)
Fixpoint run_alone {A} (replies : list (option error)) (o : outcome A) : outcome A :=
  match replies, o with
  | err :: rest, Pending s _ k => run_alone rest (k err s)
  | _, _ => o
  end.

(** [finishes o s r]: fed some sequence of events, with no other activity
    of the task in between, the promise settles with [r] in state [s]. *)
Inductive finishes {A : Type} : outcome A -> task -> result A -> Prop :=
| finishes_settled (s : task) (r : result A) :
    finishes (Settled s r) s r
| finishes_pending (s : task) (w : wait_on) (k : option error -> task -> outcome A)
    (err : option error) (s' : task) (r : result A) :
    finishes (k err s) s' r -> finishes (Pending s w k) s' r.

(** [obeys G Q n s0 o]: [o] is what a call made in state [s0] returned; it
    never throws; each time it is suspended, the part just run is related
    to the state it started from by [G]; the last part and the result are
    related by [Q]; it is suspended at most [n] times, in whatever state
    and with whatever event it is resumed. *)
Inductive obeys {A : Type} (G : task -> task -> Prop)
  (Q : task -> task -> result A -> Prop) : nat -> task -> outcome A -> Prop :=
| obeys_settled (n : nat) (s0 s : task) (r : result A) :
    Q s0 s r -> obeys G Q n s0 (Settled s r)
| obeys_pending (n : nat) (s0 s : task) (w : wait_on)
    (k : option error -> task -> outcome A) :
    G s0 s ->
    (forall err s', obeys G Q n s' (k err s')) ->
    obeys G Q (S n) s0 (Pending s w k).

(** [iterate it l s s' r]: the iterator is applied to the elements of [l]
    one after the other, each application finished before the next one
    begins, until one is rejected. *)
Inductive iterate {X : Type} (it : X -> task -> outcome unit) :
  list X -> task -> task -> result unit -> Prop :=
| iterate_nil (s : task) :
    iterate it [] s s (Fulfilled tt)
| iterate_next (x : X) (l : list X) (s s1 s' : task) (r : result unit) :
    finishes (caught (it x s)) s1 (Fulfilled tt) ->
    iterate it l s1 s' r ->
    iterate it (x :: l) s s' r
| iterate_stop (x : X) (l : list X) (s s1 : task) (e : error) :
    finishes (caught (it x s)) s1 (Rejected e) ->
    iterate it (x :: l) s s1 (Rejected e).

(** [s'] differs from [s] by handlers mounted on the application and by
    the entries [tr] added to the trace. *)
Record mounted_only (s s' : task) (tr : list effect) : Prop := {
  mo_trace : trace s' = trace s ++ tr;
  mo_app : exists a, app s = Some a /\ exists a', app s' = Some a' /\ app_id a' = app_id a;
  mo_httpServer : httpServer s' = httpServer s;
  mo_sockets : sockets s' = sockets s;
  mo_nextSocketId : nextSocketId s' = nextSocketId s;
  mo_startOptions : startOptions s' = startOptions s;
  mo_serverRestartPromise : serverRestartPromise s' = serverRestartPromise s;
  mo_require_cache : require_cache s' = require_cache s;
  mo_server_module : server_module s' = server_module s;
  mo_fresh : fresh s' = fresh s
}.

(** The first handler of the application is the compression middleware. *)
Definition compressed (s : task) : Prop :=
  exists a rest, app s = Some a /\ stack a = Compression :: rest.

(** What every part of a promise of the task respects: it leaves
    [serverRestartPromise] alone, keeps compression first, and only adds
    to the trace. *)
Definition quiet (s0 s : task) : Prop :=
  serverRestartPromise s = serverRestartPromise s0
  /\ (compressed s0 -> compressed s)
  /\ exists tr, trace s = trace s0 ++ tr.

Definition ends_quiet (s0 s : task) (r : result unit) : Prop :=
  quiet s0 s.

(** How the promise of a restart ends. *)
Definition ends_restart (s0 s : task) (r : result unit) : Prop :=
  r = Fulfilled tt /\ serverRestartPromise s = None
  /\ (compressed s0 -> compressed s).

(** ** Strings and paths *)

Definition dquote : string := String (ascii_of_nat 34) EmptyString.

(** [haystack.indexOf(needle)]; [None] stands for -1. *)
Definition indexOf (haystack needle : string) : option nat :=
  String.index 0 needle haystack.

(** [s[s.length - 1]]; [None] stands for undefined. *)
Definition last_char (s : string) : option ascii :=
  match String.length s with
  | 0 => None
  | S n => String.get n s
  end.

Definition begins_with (prefix s : string) : Prop :=
  exists rest : string, s = prefix +:+ rest.

(** ** The methods of ExpressServerTask *)

Section ExpressServerTask.

Variable env : environment.

Definition displayHost (specifiedHost : option string) : string :=
  match specifiedHost with
  | Some h => if decide (h = EmptyString) then "localhost" else h
  | None => "localhost"
  end.

(** [this.app], as an identity. *)
Definition the_app (s : task) : nat :=
  match app s with
  | Some a => app_id a
  | None => 0
  end.

(** [this.app = this.express()] *)
Definition express (s : task) : task :=
  let a := fresh s in
  record (Express a)
    (set_app (Some {| app_id := a; stack := [] |}) (set_fresh (S a) s)).

(** [this.app.use(m)] *)
Definition use (m : middleware) (s : task) : task :=
  match app s with
  | Some a =>
      record (Use (app_id a) m)
        (set_app (Some {| app_id := app_id a; stack := stack a ++ [m] |}) s)
  | None => s
  end.

Definition createHttpsServer (s : task) : error + task * nat :=
  let o := startOptions s in
  if negb (existsSync env (sslKey o)) then
    inl (TypeError ("SSL key couldn't be found in " +:+ dquote +:+ sslKey o +:+ dquote +:+ ", "
           +:+ "please provide a path to an existing ssl key file with --ssl-key"))
  else if negb (existsSync env (sslCert o)) then
    inl (TypeError ("SSL certificate couldn't be found in " +:+ dquote +:+ sslCert o +:+ dquote +:+ ", "
           +:+ "please provide a path to an existing ssl certificate file with --ssl-cert"))
  else
    let server := fresh s in
    inr (record (CreateHttpsServer server (readFileSync env (sslKey o))
                   (readFileSync env (sslCert o)) (the_app s))
           (set_fresh (S server) s), server).

(** [this.http.createServer(this.app)] *)
Definition createServer (s : task) : task * nat :=
  let server := fresh s in
  (record (CreateServer server (the_app s)) (set_fresh (S server) s), server).

Definition setupHttpServer (s : task) : error + task :=
  match (if ssl (startOptions s) then createHttpsServer s else inr (createServer s)) with
  | inl e => inl e
  | inr (s1, server) =>
      inr (set_nextSocketId 0 (set_sockets ∅ (set_httpServer (Some server) s1)))
  end.

(** The listener registered on 'connection' by [setupHttpServer]. *)
Definition on_connection (socket : nat) (s : task) : task :=
  let socketId := nextSocketId s in
  set_sockets (<[socketId := socket]> (sockets s)) (set_nextSocketId (S socketId) s).

(** The listener registered on the 'close' of the socket stored as
    [socketId]. *)
Definition on_socket_close (socketId : nat) (s : task) : task :=
  set_sockets (delete socketId (sockets s)) s.

Definition listen (port : Z) (host : option string) (s : task) : outcome unit :=
  match httpServer s with
  | Some server =>
      await (record (Listen server port host) s) (ServerListen server)
        (fun err s' =>
           match err with
           | None => Settled (record (Emit "listening") s') (Fulfilled tt)
           | Some e => Settled s' (Rejected e)
           end)
  | None =>
      Settled s (Rejected (TypeError "Cannot read property 'listen' of null"))
  end.

(** Calls a function of a collaborator with [this.app]. *)
Definition invoke (owner : collaborator) (f : callable) (s : task) : outcome unit :=
  let s1 := fold_left (fun s m => use m s) (mounts f) s in
  match completes f with
  | Returns => Settled s1 (Fulfilled tt)
  | Throws e => Threw s1 e
  | ReturnsPromise =>
      await s1 (Thenable owner)
        (fun err s' =>
           match err with
           | None => Settled s' (Fulfilled tt)
           | Some e => Settled s' (Rejected e)
           end)
  end.

(** [mapSeries(array, iterator)] of promise-map-series. *)
Definition mapSeries {X} (array : list X) (iterator : X -> task -> outcome unit)
  (s : task) : outcome unit :=
  let current :=
    fold_left (fun current x => then_ current (fun _ => iterator x))
      array (Settled s (Fulfilled tt)) in
  then_ current (fun _ s' => Settled s' (Fulfilled tt)).

(** The [options] argument of the two methods below is the object held in
    [this.startOptions]; its fields are read as they are when the method
    runs. *)
Definition processAddonMiddlewares (s : task) : outcome unit :=
  mapSeries (addons env)
    (fun addon s' =>
       match serverMiddleware addon with
       | Some hook =>
           invoke (TheAddon addon) hook
             (record (InvokeAddon addon (the_app s') (startOptions s')) s')
       | None => Settled s' (Fulfilled tt)
       end)
    (record InitializeAddons s).

Definition processAppMiddlewares (s : task) : outcome unit :=
  match server_module s with
  | Some server =>
      match server with
      | RequireThrows e => Threw s e
      | NotAFunction =>
          Threw s (TypeError
            "ember-cli expected ./server/index.js to be the entry for your mock or proxy server")
      | Function length body =>
          if length =? 3 then
            Settled (use ServerModule s) (Fulfilled tt)
          else
            invoke TheServer body (record (InvokeServer (the_app s) (startOptions s)) s)
      end
  | None => Settled s (Fulfilled tt)
  end.

Definition stopHttpServer (s : task) : outcome unit :=
  match httpServer s with
  | None => Settled s (Fulfilled tt)
  | Some server =>
      let s1 := record (Close server) s in
      (* for (let socketId in sockets) sockets[socketId].destroy() *)
      let s2 := fold_left (fun s socket => record (Destroy socket) s)
                  (map_to_list (sockets s)).*2 s1 in
      await s2 (ServerClose server)
        (fun err s' =>
           match err with
           | Some e => Settled s' (Rejected e)
           | None => Settled (set_httpServer None s') (Fulfilled tt)
           end)
  end.

Definition bind_failure (o : start_options) : error :=
  SilentError ("Could not serve on http://" +:+ displayHost (host o) +:+ ":"
    +:+ pretty (port o) +:+ ". "
    +:+ "It is either in use or you do not have permission.").

Definition startHttpServer (s : task) : outcome unit :=
  let s1 := use Compression (express s) in
  match setupHttpServer s1 with
  | inl e => Threw s1 e
  | inr s2 =>
      let s3 := set_startOptions (with_httpServer (httpServer s2) (startOptions s2)) s2 in
      then_
        (then_
          (then_ (Settled s3 (Fulfilled tt))
            (fun _ s' => processAppMiddlewares s'))
          (fun _ s' => processAddonMiddlewares s'))
        (fun _ s' =>
           catch_ (listen (port (startOptions s')) (host (startOptions s')) s')
             (fun _ s'' => Threw s'' (bind_failure (startOptions s''))))
  end.

Definition normalized_baseURL (o : start_options) : string :=
  match rootURL o with
  | Some r => if decide (r = EmptyString) then "/" else cleanBaseURL env (Some r)
  | None => cleanBaseURL env (baseURL o)
  end.

Definition serving_line (o : start_options) : string :=
  "Serving on http" +:+ (if ssl o then "s" else EmptyString) +:+ "://"
    +:+ displayHost (host o) +:+ ":" +:+ pretty (port o) +:+ normalized_baseURL o.

(** [options] is the object stored in [this.startOptions].  The listeners
    registered on the server watcher are the events [Notify] of the
    [world] below. *)
Definition start (options : start_options) (s : task) : outcome unit :=
  let s1 := set_startOptions options s in
  then_ (startHttpServer s1)
    (fun _ s' =>
       Settled (record (UiWriteLine (serving_line (startOptions s'))) s') (Fulfilled tt)).

(** The root as [invalidateCache] compares it with the cache keys. *)
Definition absoluteServerRoot (root : string) : string :=
  let absolute := path_resolve env root in
  if decide (last_char absolute = Some (path_sep env)) then absolute
  else absolute +:+ String (path_sep env) EmptyString.

Definition purge (root : string) (cache : gmap string nat) : gmap string nat :=
  let allKeys := (map_to_list cache).*1 in
  fold_left
    (fun cache key =>
       if decide (indexOf key (absoluteServerRoot root) = Some 0)
       then delete key cache else cache)
    allKeys cache.

Definition invalidateCache (root : string) (s : task) : task :=
  record (PurgeCache (absoluteServerRoot root))
    (set_require_cache (purge root (require_cache s)) s).

(** The call that creates the server of a build. *)
Definition creates (s : task) : effect :=
  if ssl (startOptions s)
  then CreateHttpsServer (S (fresh s)) (readFileSync env (sslKey (startOptions s)))
         (readFileSync env (sslCert (startOptions s))) (fresh s)
  else CreateServer (S (fresh s)) (fresh s).

(** The state in which the promise chain of a build begins. *)
Definition build_begins (s : task) : task :=
  {| app := Some {| app_id := fresh s; stack := [Compression] |};
     httpServer := Some (S (fresh s));
     sockets := ∅;
     nextSocketId := 0;
     startOptions := with_httpServer (Some (S (fresh s))) (startOptions s);
     serverRestartPromise := serverRestartPromise s;
     require_cache := require_cache s;
     server_module := server_module s;
     fresh := S (S (fresh s));
     trace := trace s ++ [Express (fresh s); Use (fresh s) Compression; creates s] |}.

(** The promise built by [restartHttpServer] when no restart is running:
    first the part before [.catch], then the whole. *)
Definition restart_attempt (s : task) : outcome unit :=
  then_
    (then_ (stopHttpServer s)
      (fun _ s' => startHttpServer (invalidateCache (serverRoot env) s')))
    (fun _ s' =>
       Settled
         (record (UiWriteLine EmptyString)
           (record (UiWriteLine "Server restarted.")
             (record (UiWriteLine EmptyString)
               (record (Emit "restart") s'))))
         (Fulfilled tt)).

Definition restart_cycle (s : task) : outcome unit :=
  finally_
    (catch_ (restart_attempt s)
      (fun err s' => Settled (record (UiWriteError err) s') (Fulfilled tt)))
    (set_serverRestartPromise None).

(** ** The event loop *)

(** Who a promise was made for: [start], or the n-th call of
    [restartHttpServer] from outside. *)
Inductive owner : Type :=
| Initial
| Request (rq : nat).

(** A pending promise kept by the loop. *)
Record chain : Type := {
  chain_owner : owner;
  waits : wait_on;
  resume : option error -> task -> outcome unit
}.

(** How a promise ended. *)
Inductive final : Type :=
| Resolved
| RejectedWith (e : error)
| Thrown (e : error).

Record world : Type := {
  this : task;
  pending : gmap nat chain;           (* promises not settled yet *)
  reactions : list (nat * nat);       (* (p, rq): p.then(() => this.restartHttpServer())
                                         registered for request rq *)
  settled : list (owner * final);     (* promises that ended, oldest first *)
  promises : nat;                     (* identity of the next promise *)
  requests : nat;                     (* calls of restartHttpServer from outside *)
  now : Z;                            (* the clock *)
  lastCall : option Z                 (* debounce: last call, while the timer runs *)
}.

Definition set_this (v : task) (w : world) : world :=
  {| this := v; pending := pending w; reactions := reactions w;
     settled := settled w; promises := promises w; requests := requests w;
     now := now w; lastCall := lastCall w |}.

Definition set_pending (v : gmap nat chain) (w : world) : world :=
  {| this := this w; pending := v; reactions := reactions w;
     settled := settled w; promises := promises w; requests := requests w;
     now := now w; lastCall := lastCall w |}.

Definition set_reactions (v : list (nat * nat)) (w : world) : world :=
  {| this := this w; pending := pending w; reactions := v;
     settled := settled w; promises := promises w; requests := requests w;
     now := now w; lastCall := lastCall w |}.

Definition set_settled (v : list (owner * final)) (w : world) : world :=
  {| this := this w; pending := pending w; reactions := reactions w;
     settled := v; promises := promises w; requests := requests w;
     now := now w; lastCall := lastCall w |}.

Definition set_promises (v : nat) (w : world) : world :=
  {| this := this w; pending := pending w; reactions := reactions w;
     settled := settled w; promises := v; requests := requests w;
     now := now w; lastCall := lastCall w |}.

Definition set_requests (v : nat) (w : world) : world :=
  {| this := this w; pending := pending w; reactions := reactions w;
     settled := settled w; promises := promises w; requests := v;
     now := now w; lastCall := lastCall w |}.

Definition set_now (v : Z) (w : world) : world :=
  {| this := this w; pending := pending w; reactions := reactions w;
     settled := settled w; promises := promises w; requests := requests w;
     now := v; lastCall := lastCall w |}.

Definition set_lastCall (v : option Z) (w : world) : world :=
  {| this := this w; pending := pending w; reactions := reactions w;
     settled := settled w; promises := promises w; requests := requests w;
     now := now w; lastCall := v |}.

(** Takes over what a call returned as promise [p]. *)
Definition adopt (p : nat) (who : owner) (o : outcome unit) (w : world) : world :=
  match o with
  | Pending s wt k =>
      set_pending (<[p := {| chain_owner := who; waits := wt; resume := k |}]> (pending w))
        (set_this s w)
  | Settled s (Fulfilled _) =>
      set_settled (settled w ++ [(who, Resolved)]) (set_this s w)
  | Settled s (Rejected e) =>
      set_settled (settled w ++ [(who, RejectedWith e)]) (set_this s w)
  | Threw s e =>
      set_settled (settled w ++ [(who, Thrown e)]) (set_this s w)
  end.

(** [restartHttpServer()], called for request [rq]. *)
Definition restartHttpServer (rq : nat) (w : world) : world :=
  match serverRestartPromise (this w) with
  | None =>
      let p := promises w in
      adopt p (Request rq)
        (and_then (set_serverRestartPromise (Some p)) (restart_cycle (this w)))
        (set_promises (S p) w)
  | Some p =>
      set_reactions (reactions w ++ [(p, rq)]) w
  end.

(** Runs, in the order of their registration, the reactions registered on
    promise [p]. *)
Definition run_reactions (p : nat) (w : world) : world :=
  fold_left (fun w r => restartHttpServer (snd r) w)
    (filter (fun r => fst r = p) (reactions w))
    (set_reactions (filter (fun r => fst r <> p) (reactions w)) w).

(** The event promise [p] waits for occurs. *)
Definition deliver (p : nat) (err : option error) (w : world) : world :=
  match pending w !! p with
  | None => w
  | Some c =>
      let o := resume c err (this w) in
      let w1 := adopt p (chain_owner c) o (set_pending (delete p (pending w)) w) in
      match o with
      | Pending _ _ _ => w1
      | _ => run_reactions p w1
      end
  end.

(** [this.serverRestartDelayTime || 100] *)
Definition delay : Z :=
  match serverRestartDelayTime env with
  | Some d => if decide (d = 0%Z) then 100%Z else d
  | None => 100%Z
  end.

(** The debounced function: a call (re)starts the timer. *)
Definition scheduleServerRestart (w : world) : world :=
  set_lastCall (Some (now w)) w.

Definition serverWatcherDidChange (w : world) : world :=
  scheduleServerRestart w.

(** A call of [restartHttpServer] from outside the task. *)
Definition request_restart (w : world) : world :=
  restartHttpServer (requests w) (set_requests (S (requests w)) w).

(** Time passes; the debounced function runs once [delay] has elapsed
    since its last call. *)
Definition elapse (dt : Z) (w : world) : world :=
  if decide (dt < 0)%Z then w
  else
    let w1 := set_now (now w + dt)%Z w in
    match lastCall w1 with
    | Some t0 =>
        if decide (delay <= now w1 - t0)%Z
        then request_restart (set_lastCall None w1)
        else w1
    | None => w1
    end.

Inductive notification : Type :=
| Changed
| Added
| Deleted.

Inductive event : Type :=
| Deliver (p : nat) (err : option error)     (* what promise p waits for occurs *)
| Connection (socket : nat)                  (* 'connection' of a server *)
| SocketClose (socketId : nat)               (* 'close' of a registered socket *)
| Notify (what : notification)               (* 'change', 'add' or 'delete' of the watcher *)
| Elapse (dt : Z)
| CallRestart                                (* restartHttpServer() called directly *)
| Edit (m : option server_export)            (* ./server changes on disk *)
| ModuleLoaded (key : string) (m : nat).     (* a module is loaded *)

Definition step (ev : event) (w : world) : world :=
  match ev with
  | Deliver p err => deliver p err w
  | Connection socket => set_this (on_connection socket (this w)) w
  | SocketClose socketId => set_this (on_socket_close socketId (this w)) w
  | Notify _ => serverWatcherDidChange w
  | Elapse dt => elapse dt w
  | CallRestart => request_restart w
  | Edit m => set_this (set_server_module m (this w)) w
  | ModuleLoaded key m =>
      set_this (set_require_cache (<[key := m]> (require_cache (this w))) (this w)) w
  end.

Definition run (events : list event) (w : world) : world :=
  fold_left (fun w ev => step ev w) events w.

(** The task as constructed, before [start]; [startOptions] is assigned
    by [start] before it is read. *)
Definition created (options : start_options) (disk : option server_export) : task :=
  {| app := None; httpServer := None; sockets := ∅; nextSocketId := 0;
     startOptions := options; serverRestartPromise := None;
     require_cache := ∅; server_module := disk; fresh := 0; trace := [] |}.

(** The world right after [start(options)] returned. *)
Definition boot (options : start_options) (disk : option server_export) : world :=
  adopt 0 Initial (start options (created options disk))
    {| this := created options disk; pending := ∅; reactions := [];
       settled := []; promises := 1; requests := 0; now := 0; lastCall := None |}.

(** ** The shape of a build

    What the events of a finished build look like, phase by phase, as the
    specification describes it.  [a] is the application of the build and
    [o] the options handed to the collaborators. *)

(** A collaborator's function is called with the application: it mounts
    its handlers, and returns, throws, or returns a promise that is settled
    before anything else happens. *)
Inductive call_trace (who : collaborator) (a : nat) (f : callable) :
  list effect -> result unit -> Prop :=
| call_returns :
    completes f = Returns ->
    call_trace who a f (map (Use a) (mounts f)) (Fulfilled tt)
| call_throws (e : error) :
    completes f = Throws e ->
    call_trace who a f (map (Use a) (mounts f)) (Rejected e)
| call_resolves :
    completes f = ReturnsPromise ->
    call_trace who a f (map (Use a) (mounts f) ++ [Reply (Thenable who) None])
      (Fulfilled tt)
| call_rejects (e : error) :
    completes f = ReturnsPromise ->
    call_trace who a f (map (Use a) (mounts f) ++ [Reply (Thenable who) (Some e)])
      (Rejected e).

(** Phase 1: the optional custom server module. *)
Inductive module_phase (a : nat) (o : start_options) :
  option server_export -> list effect -> result unit -> Prop :=
| module_absent :
    module_phase a o None [] (Fulfilled tt)
| module_broken (e : error) :
    module_phase a o (Some (RequireThrows e)) [] (Rejected e)
| module_not_a_function :
    module_phase a o (Some NotAFunction) []
      (Rejected (TypeError
         "ember-cli expected ./server/index.js to be the entry for your mock or proxy server"))
| module_handler (body : callable) :
    module_phase a o (Some (Function 3 body)) [Use a ServerModule] (Fulfilled tt)
| module_factory (n : nat) (body : callable) (tr : list effect) (r : result unit) :
    n <> 3 ->
    call_trace TheServer a body tr r ->
    module_phase a o (Some (Function n body)) (InvokeServer a o :: tr) r.

(** Phase 2: the addons, in the order of the collection; the first hook
    that fails ends the phase. *)
Inductive addon_phase (a : nat) (o : start_options) :
  list addon -> list effect -> result unit -> Prop :=
| addons_done :
    addon_phase a o [] [] (Fulfilled tt)
| addons_skip (x : addon) (rest : list addon) (tr : list effect) (r : result unit) :
    serverMiddleware x = None ->
    addon_phase a o rest tr r ->
    addon_phase a o (x :: rest) tr r
| addons_next (x : addon) (hook : callable) (rest : list addon)
    (tr1 tr : list effect) (r : result unit) :
    serverMiddleware x = Some hook ->
    call_trace (TheAddon x) a hook tr1 (Fulfilled tt) ->
    addon_phase a o rest tr r ->
    addon_phase a o (x :: rest) (InvokeAddon x a o :: tr1 ++ tr) r
| addons_abort (x : addon) (hook : callable) (rest : list addon)
    (tr1 : list effect) (e : error) :
    serverMiddleware x = Some hook ->
    call_trace (TheAddon x) a hook tr1 (Rejected e) ->
    addon_phase a o (x :: rest) (InvokeAddon x a o :: tr1) (Rejected e).

(** Phase 3: binding. *)
Inductive listen_phase (server : nat) (o : start_options) :
  list effect -> result unit -> Prop :=
| listen_succeeds :
    listen_phase server o
      [Listen server (port o) (host o); Reply (ServerListen server) None;
       Emit "listening"]
      (Fulfilled tt)
| listen_fails (e : error) :
    listen_phase server o
      [Listen server (port o) (host o); Reply (ServerListen server) (Some e)]
      (Rejected (bind_failure o)).

(** The three phases in sequence; a phase that fails ends the build. *)
Inductive build_trace (a server : nat) (o : start_options)
  (m : option server_export) : list effect -> result unit -> Prop :=
| build_module_fails (tr1 : list effect) (e : error) :
    module_phase a o m tr1 (Rejected e) ->
    build_trace a server o m tr1 (Rejected e)
| build_addon_fails (tr1 tr2 : list effect) (e : error) :
    module_phase a o m tr1 (Fulfilled tt) ->
    addon_phase a o (addons env) tr2 (Rejected e) ->
    build_trace a server o m (tr1 ++ InitializeAddons :: tr2) (Rejected e)
| build_listens (tr1 tr2 tr3 : list effect) (r : result unit) :
    module_phase a o m tr1 (Fulfilled tt) ->
    addon_phase a o (addons env) tr2 (Fulfilled tt) ->
    listen_phase server o tr3 r ->
    build_trace a server o m (tr1 ++ InitializeAddons :: tr2 ++ tr3) r.

(** Calls and events of the two middleware phases. *)
Definition middleware_effect (e : effect) : bool :=
  match e with
  | Use _ _ => true
  | InitializeAddons => true
  | InvokeServer _ _ => true
  | InvokeAddon _ _ _ => true
  | Reply (Thenable _) _ => true
  | _ => false
  end.

(** Calls and events that concern binding. *)
Definition about_binding (e : effect) : bool :=
  match e with
  | Listen _ _ _ => true
  | Reply (ServerListen _) _ => true
  | _ => false
  end.

(** The spec's ConfigurationError is the TypeError the source throws. *)
Definition ConfigurationError (e : error) : Prop :=
  exists message, e = TypeError message.

(** The task considers that no server is active (the test made by
    [stopHttpServer]). *)
Definition stopped (s : task) : Prop := httpServer s = None.

(** The steps of a restart cycle, as they show in the trace. *)
Inductive phase : Type :=
| StopCalled               (* httpServer.close is called *)
| StopDone                 (* its callback reports success *)
| StopFailed               (* its callback reports an error *)
| CachePurged              (* invalidateCache has run *)
| StartCalled.             (* startHttpServer creates the application *)

Definition phase_of (e : effect) : list phase :=
  match e with
  | Close _ => [StopCalled]
  | Reply (ServerClose _) None => [StopDone]
  | Reply (ServerClose _) (Some _) => [StopFailed]
  | PurgeCache _ => [CachePurged]
  | Express _ => [StartCalled]
  | _ => []
  end.

Definition phases (tr : list effect) : list phase := flat_map phase_of tr.

(** ** Bookkeeping of the restart requests *)

Definition request_of (o : owner) : list nat :=
  match o with
  | Request rq => [rq]
  | Initial => []
  end.

(** Requests whose restart has ended. *)
Definition settled_requests (w : world) : list nat :=
  flat_map (fun x => request_of (fst x)) (settled w).

(** Requests whose restart is executing. *)
Definition running_requests (w : world) : list nat :=
  flat_map (fun x => request_of (chain_owner (snd x))) (map_to_list (pending w)).

(** Requests waiting for the restart that is executing to end. *)
Definition queued_requests (w : world) : list nat :=
  map snd (reactions w).

(** The request served by the promise in [serverRestartPromise]. *)
Definition current_request (w : world) : list nat :=
  match serverRestartPromise (this w) with
  | Some p =>
      match pending w !! p with
      | Some c => request_of (chain_owner c)
      | None => []
      end
  | None => []
  end.

(** A pending promise of the loop obeys, with the ending of its kind. *)
Definition chain_obeys (c : chain) : Prop :=
  exists n, forall err s',
    obeys quiet
      (match chain_owner c with Initial => ends_quiet | Request _ => ends_restart end)
      n s' (resume c err s').

(** What holds of the world between any two events; [todo] are the
    requests whose reaction is about to run. *)
Record invariant (todo : list nat) (w : world) : Prop := {
  inv_compressed : compressed (this w);
  inv_chains : forall p c, pending w !! p = Some c -> p < promises w /\ chain_obeys c;
  inv_slot :
    match serverRestartPromise (this w) with
    | None =>
        (forall p c, pending w !! p = Some c -> chain_owner c = Initial)
        /\ reactions w = []
    | Some p =>
        (exists c rq, pending w !! p = Some c /\ chain_owner c = Request rq)
        /\ (forall q c, pending w !! q = Some c -> chain_owner c <> Initial -> q = p)
        /\ Forall (fun r => fst r = p) (reactions w)
    end;
  inv_tickets :
    settled_requests w ++ current_request w ++ queued_requests w ++ todo
      ≡ₚ seq 0 (requests w);
  inv_resolved : forall rq f, (Request rq, f) ∈ settled w -> f = Resolved
}.



(** Bounds on the number of events a build, and a restart, wait for. *)
Definition build_bound : nat := 2 * length (addons env) + 7.

Definition cycle_bound : nat := 2 * length (addons env) + 12.

End ExpressServerTask.

(** A burst of notifications: the first one, then each later one after
    the given time has elapsed since the previous one. *)
Definition burst (first : notification) (later : list (Z * notification)) : list event :=
  Notify first :: flat_map (fun gn => [Elapse (fst gn); Notify (snd gn)]) later.

(** ** Concrete inputs *)

Definition demo_addons : list addon :=
  [ {| addon_name := "live-reload";
       serverMiddleware := Some {| mounts := [Mounted "live-reload"]; completes := Returns |} |};
    {| addon_name := "no-hook"; serverMiddleware := None |};
    {| addon_name := "proxy";
       serverMiddleware := Some {| mounts := [Mounted "proxy"]; completes := ReturnsPromise |} |} ].

Definition demo_env (files : bool) : environment :=
  {| serverRoot := "server";
     serverRestartDelayTime := None;
     addons := demo_addons;
     existsSync := fun _ => files;
     readFileSync := fun p => p;
     path_resolve := fun p => "/app/" +:+ p;
     path_sep := "/"%char;
     cleanBaseURL := fun _ => "/" |}.

Definition demo_options (tls : bool) : start_options :=
  {| host := None; port := 4200; ssl := tls;
     sslKey := "ssl/server.key"; sslCert := "ssl/server.crt";
     rootURL := Some EmptyString; baseURL := None; opt_httpServer := None |}.

(** A factory that mounts one handler and returns. *)
Definition demo_factory : server_export :=
  Function 2 {| mounts := [Mounted "mock"]; completes := Returns |}.

(** The initial start succeeds: the events its promise waits for. *)
Definition demo_started : list event :=
  repeat (Deliver 0 None) 12.

(** ** The connections of a server *)



(** The 'connection' listener run for each socket of a list, in order. *)
Definition connect (new : list nat) (s : task) : task :=
  fold_left (fun s socket => on_connection socket s) new s.

(** ** What the task reports

    What the task tells the outside of its progress: the lines and errors
    it writes to the ui and the events it emits. *)
Definition report (e : effect) : bool :=
  match e with
  | UiWriteLine _ | UiWriteError _ | Emit _ => true
  | _ => false
  end.

(** ** The handlers of a build *)




(** ** The file system *)


(** ** What holds whatever happens

    A property [P] of the task that every action of the task preserves,
    one by one ([preserved]), and that the events of its surroundings
    preserve as well ([respects]). *)

(** Calls and events recorded as they are, whatever their arguments. *)
Definition passing (e : effect) : bool :=
  match e with
  | InitializeAddons | Emit _ | UiWriteLine _ | UiWriteError _
  | Close _ | Destroy _ | Reply _ _ => true
  | _ => false
  end.

Record preserved (env : environment) (P : task -> Prop) : Prop := {
  by_record : forall e s, passing e = true -> P s -> P (record e s);
  by_use : forall m s, P s -> P (use m s);
  by_express : forall s, P s -> P (use Compression (express s));
  by_setup : forall s s2, P s ->
    setupHttpServer env (use Compression (express s)) = inr s2 ->
    P (set_startOptions (with_httpServer (httpServer s2) (startOptions s2)) s2);
  by_invoke_server : forall s, P s ->
    P (record (InvokeServer (the_app s) (startOptions s)) s);
  by_invoke_addon : forall x s, P s ->
    P (record (InvokeAddon x (the_app s) (startOptions s)) s);
  by_listen : forall server s, P s ->
    P (record (Listen server (port (startOptions s)) (host (startOptions s))) s);
  by_stop : forall s, P s -> P (set_httpServer None s);
  by_purge : forall s, P s -> P (invalidateCache env (serverRoot env) s);
  by_slot : forall v s, P s -> P (set_serverRestartPromise v s)
}.

(** An event of the surroundings of the task preserves [P]. *)
Definition respects (P : task -> Prop) (ev : event) : Prop :=
  match ev with
  | Connection socket => forall s, P s -> P (on_connection socket s)
  | SocketClose socketId => forall s, P s -> P (on_socket_close socketId s)
  | Edit m => forall s, P s -> P (set_server_module m s)
  | ModuleLoaded key m =>
      forall s, P s -> P (set_require_cache (<[key := m]> (require_cache s)) s)
  | _ => True
  end.

(** Each part of a promise keeps [P]. *)
Definition keeps (P : task -> Prop) (s0 s : task) : Prop := P s0 -> P s.

Definition ends_keeping (P : task -> Prop) (s0 s : task) (r : result unit) : Prop :=
  P s0 -> P s.

(** Every pending promise of the loop keeps [P]. *)
Definition chains_keep (P : task -> Prop) (w : world) : Prop :=
  forall p c, pending w !! p = Some c ->
    exists n, forall err s', obeys (keeps P) (ends_keeping P) n s' (resume c err s').

(** *** The options *)

(** Two option objects that differ at most by [httpServer]. *)
Definition same_settings (o o' : start_options) : Prop :=
  host o = host o' /\ port o = port o' /\ ssl o = ssl o'
  /\ sslKey o = sslKey o' /\ sslCert o = sslCert o'
  /\ rootURL o = rootURL o' /\ baseURL o = baseURL o'.

(** A call recorded in the trace was made with the settings [options]. *)
Definition as_started (env : environment) (options : start_options) (e : effect) : Prop :=
  match e with
  | CreateServer _ _ => ssl options = false
  | CreateHttpsServer _ key cert _ =>
      ssl options = true
      /\ key = readFileSync env (sslKey options)
      /\ cert = readFileSync env (sslCert options)
  | Listen _ p h => p = port options /\ h = host options
  | InvokeServer _ o => same_settings o options
  | InvokeAddon _ _ o => same_settings o options
  | _ => True
  end.

(** The task holds the settings [options], its options name the server
    it holds, and all its calls so far were made with these settings. *)
Definition faithful (env : environment) (options : start_options) (s : task) : Prop :=
  same_settings (startOptions s) options
  /\ (forall server, httpServer s = Some server ->
        opt_httpServer (startOptions s) = Some server)
  /\ Forall (as_started env options) (trace s).

(** *** The ids of the sockets *)

(** Every id in use is below the next id. *)
Definition registry_in_range (s : task) : Prop :=
  forall id, is_Some (sockets s !! id) -> id < nextSocketId s.

(** *** The modules loaded *)

(** What the last load of [key] among the events put in the cache. *)
Definition loaded (key : string) (events : list event) : option nat :=
  fold_left
    (fun v ev =>
       match ev with
       | ModuleLoaded k m => if decide (k = key) then Some m else v
       | _ => v
       end)
    events None.

(** * Properties *)

(** ** Strings *)

Lemma prefix_begins_with (p s : string) :
  String.prefix p s = true <-> begins_with p s.
Proof.
  revert s. induction p as [|a p IH]; intros s; simpl.
  - split; [intros _; exists s; reflexivity | intros _; by destruct s].
  - destruct s as [|b s].
    + split; [discriminate | intros [rest H]; discriminate].
    + simpl. destruct (Ascii.ascii_dec a b) as [->|Hab].
      * rewrite IH. split; intros [rest H]; exists rest.
        -- simpl. by rewrite H.
        -- simpl in H. by injection H.
      * split; [discriminate | intros [rest H]; simpl in H; injection H as -> _; done].
Qed.

Lemma indexOf_zero (s p : string) :
  indexOf s p = Some 0 <-> begins_with p s.
Proof.
  rewrite <- prefix_begins_with. unfold indexOf.
  destruct s as [|b s].
  - destruct p; simpl; split; congruence.
  - change (index 0 p (String b s))
      with (if String.prefix p (String b s) then Some 0
            else match index 0 p s with Some n => Some (S n) | None => None end).
    destruct (String.prefix p (String b s)).
    + done.
    + destruct (index 0 p s); split; done.
Qed.

(** ** The module cache *)

Lemma delete_loop_lookup (P : string -> Prop) `{!forall k, Decision (P k)}
  (keys : list string) (m : gmap string nat) (k : string) :
  fold_left (fun c key => if decide (P key) then delete key c else c) keys m !! k
  = if decide (P k /\ k ∈ keys) then None else m !! k.
Proof.
  revert m. induction keys as [|key keys IH]; intros m; simpl.
  - case_decide as Hd; [|done]. destruct Hd as [_ Hd]. by apply elem_of_nil in Hd.
  - rewrite IH.
    destruct (decide (P k /\ k ∈ keys)) as [[HP Hin]|Hn].
    + rewrite decide_True; [done|]. split; [done|]. by apply list_elem_of_further.
    + destruct (decide (key = k)) as [->|Hne].
      * destruct (decide (P k)) as [HP|HP].
        -- rewrite lookup_delete_eq. rewrite decide_True; [done|].
           split; [done|]. apply list_elem_of_here.
        -- rewrite decide_False; [done|]. tauto.
      * assert (Hm : (if decide (P key) then delete key m else m) !! k = m !! k).
        { case_decide; [by rewrite lookup_delete_ne | done]. }
        rewrite Hm. rewrite decide_False; [done|].
        intros [HP Hin]. apply elem_of_cons in Hin as [->|Hin]; tauto.
Qed.

Lemma purge_lookup (env : environment) (root : string) (cache : gmap string nat) (k : string) :
  purge env root cache !! k
  = if decide (indexOf k (absoluteServerRoot env root) = Some 0) then None else cache !! k.
Proof.
  unfold purge.
  rewrite (delete_loop_lookup (fun key => indexOf key (absoluteServerRoot env root) = Some 0)).
  destruct (decide (indexOf k (absoluteServerRoot env root) = Some 0)) as [Hi|Hi].
  - destruct (cache !! k) as [v|] eqn:E.
    + rewrite decide_True; [done|]. split; [done|].
      apply list_elem_of_fmap. exists (k, v). split; [done|].
      by apply elem_of_map_to_list.
    + by case_decide.
  - rewrite decide_False; [done | tauto].
Qed.

Lemma last_char_append (s : string) (c : ascii) :
  last_char (s +:+ String c EmptyString) = Some c.
Proof.
  unfold last_char.
  assert (H : String.length (s +:+ String c EmptyString) = S (String.length s)).
  { induction s as [|a t IHt]; simpl; [done | by rewrite IHt]. }
  rewrite H. clear H. induction s as [|a s IHs]; simpl; done.
Qed.

Lemma absoluteServerRoot_ends_with_sep (env : environment) (root : string) :
  last_char (absoluteServerRoot env root) = Some (path_sep env).
Proof.
  unfold absoluteServerRoot. case_decide; [done | apply last_char_append].
Qed.

Lemma append_cons (x : ascii) (a b : string) :
  String x a +:+ b = String x (a +:+ b).
Proof. reflexivity. Qed.

Lemma append_assoc (a b c : string) : (a +:+ b) +:+ c = a +:+ (b +:+ c).
Proof.
  induction a as [|x a IH]; [done|]. rewrite !append_cons. by rewrite IH.
Qed.

Lemma append_inj_l (a b c : string) : a +:+ b = a +:+ c -> b = c.
Proof.
  induction a as [|x a IH]; [done|]. rewrite !append_cons.
  intros H. injection H. auto.
Qed.

(** [C7] [invalidateCache] removes exactly the cache entries whose key
    begins with the resolved root extended to end in the path separator:
    such an entry is gone afterwards, every other entry is kept, an entry of
    a sibling directory whose name merely extends the root's is kept, and
    nothing changes when no key lies under the root. *)
Theorem invalidateCache_removes_exactly_under_root
  (env : environment) (root : string) (s : task) :
  let under := begins_with (absoluteServerRoot env root) in
  last_char (absoluteServerRoot env root) = Some (path_sep env)
  /\ begins_with (path_resolve env root) (absoluteServerRoot env root)
  /\ (forall key, under key ->
        require_cache (invalidateCache env root s) !! key = None)
  /\ (forall key, ~ under key ->
        require_cache (invalidateCache env root s) !! key = require_cache s !! key)
  /\ (forall c rest,
        last_char (path_resolve env root) <> Some (path_sep env) ->
        c <> path_sep env ->
        let sibling := path_resolve env root +:+ String c rest in
        require_cache (invalidateCache env root s) !! sibling
        = require_cache s !! sibling)
  /\ ((forall key, is_Some (require_cache s !! key) -> ~ under key) ->
        require_cache (invalidateCache env root s) = require_cache s).
Proof.
  intros under.
  assert (Hkeep : forall key, ~ under key ->
    require_cache (invalidateCache env root s) !! key = require_cache s !! key).
  { intros key Hn. simpl. rewrite purge_lookup. case_decide as H; [|done].
    exfalso. apply Hn. by apply indexOf_zero. }
  split; [apply absoluteServerRoot_ends_with_sep|].
  split.
  { unfold absoluteServerRoot. case_decide.
    - exists EmptyString. clear.
      induction (path_resolve env root) as [|x t IHt]; [done|].
      rewrite append_cons. by rewrite <- IHt.
    - by eexists. }
  split.
  { intros key Hu. simpl. rewrite purge_lookup. case_decide as H; [done|].
    exfalso. apply H. by apply indexOf_zero. }
  split; [exact Hkeep|].
  split.
  { intros c rest Hlast Hc sibling. apply Hkeep.
    intros [tl Htl]. unfold sibling, absoluteServerRoot in Htl.
    case_decide; [done|].
    rewrite append_assoc in Htl. apply append_inj_l in Htl.
    rewrite append_cons in Htl. congruence. }
  intros Hnone. simpl.
  apply map_eq. intros key. rewrite purge_lookup. case_decide as H; [|done].
  destruct (require_cache s !! key) eqn:E; [|done].
  exfalso. apply (Hnone key); [by rewrite E | by apply indexOf_zero].
Qed.

(** ** Promises *)

Lemma run_alone_finishes {A} (replies : list (option error)) (o : outcome A)
  (s : task) (r : result A) :
  run_alone replies o = Settled s r -> finishes o s r.
Proof.
  revert o. induction replies as [|err rest IH]; intros o H.
  - destruct o; simpl in H; try discriminate. injection H as -> ->. constructor.
  - destruct o as [s0 e|s0 r0|s0 w k]; simpl in H; try discriminate.
    + injection H as -> ->. constructor.
    + econstructor. by apply IH.
Qed.

Lemma finishes_run_alone {A} (o : outcome A) (s : task) (r : result A) :
  finishes o s r -> exists replies, run_alone replies o = Settled s r.
Proof.
  induction 1 as [s r|s w k err s' r _ [replies IH]].
  - by exists [].
  - by exists (err :: replies).
Qed.

Lemma finishes_caught {A} (o : outcome A) (s : task) (r : result A) :
  finishes (caught o) s r ->
  finishes o s r \/ exists e, o = Threw s e /\ r = Rejected e.
Proof.
  destruct o; simpl; intros H; [right|by left|by left].
  inversion H; subst. by eexists.
Qed.

Lemma finishes_react {A B} (o : outcome A) (f : result A -> task -> outcome B)
  (s : task) (r : result B) :
  finishes (react o f) s r ->
  exists s1 r1, finishes o s1 r1 /\ finishes (caught (f r1 s1)) s r.
Proof.
  induction o as [s0 e|s0 r0|s0 w k IH]; simpl; intros H.
  - inversion H.
  - inversion H; subst. exists s0, r0. split; [constructor | done].
  - inversion H; subst.
    destruct (IH _ _ H5) as (s1 & r1 & H1 & H2).
    exists s1, r1. split; [by econstructor | done].
Qed.

Lemma finishes_then {A B} (o : outcome A) (f : A -> task -> outcome B)
  (s : task) (r : result B) :
  finishes (then_ o f) s r ->
  exists s1 r1, finishes o s1 r1 /\
    match r1 with
    | Fulfilled v => finishes (caught (f v s1)) s r
    | Rejected e => s = s1 /\ r = Rejected e
    end.
Proof.
  intros H. apply finishes_react in H as (s1 & r1 & H1 & H2).
  exists s1, r1. split; [done|].
  destruct r1; [done|]. simpl in H2. by inversion H2.
Qed.

Lemma finishes_catch {A} (o : outcome A) (h : error -> task -> outcome A)
  (s : task) (r : result A) :
  finishes (catch_ o h) s r ->
  exists s1 r1, finishes o s1 r1 /\
    match r1 with
    | Fulfilled v => s = s1 /\ r = Fulfilled v
    | Rejected e => finishes (caught (h e s1)) s r
    end.
Proof.
  intros H. apply finishes_react in H as (s1 & r1 & H1 & H2).
  exists s1, r1. split; [done|].
  destruct r1; [|done]. simpl in H2. by inversion H2.
Qed.

Lemma finishes_finally {A} (o : outcome A) (f : task -> task)
  (s : task) (r : result A) :
  finishes (finally_ o f) s r ->
  exists s1, finishes o s1 r /\ s = f s1.
Proof.
  intros H. apply finishes_react in H as (s1 & r1 & H1 & H2).
  simpl in H2. inversion H2; subst. by exists s1.
Qed.

(** *** Promises that keep to a discipline *)

Lemma obeys_mono {A} (G : task -> task -> Prop) (Q : task -> task -> result A -> Prop)
  (n m : nat) (s0 : task) (o : outcome A) :
  n <= m -> obeys G Q n s0 o -> obeys G Q m s0 o.
Proof.
  intros Hle H. revert m Hle.
  induction H as [n s0 s r HQ|n s0 s w k HG _ IH]; intros m Hle.
  - by constructor.
  - destruct m as [|m]; [lia|]. constructor; [done|].
    intros err s'. apply IH. lia.
Qed.

Lemma obeys_react {A B} (G : task -> task -> Prop)
  (Q : task -> task -> result A -> Prop) (Q' : task -> task -> result B -> Prop)
  (n m : nat) (s0 : task) (o : outcome A) (f : result A -> task -> outcome B) :
  obeys G Q n s0 o ->
  (forall a b r, Q a b r -> G a b) ->
  (forall a b r s, Q a b r -> obeys G Q' m s (caught (f r s))) ->
  obeys G Q' (n + S m) s0 (react o f).
Proof.
  intros H HQ Hf.
  induction H as [n s0 s r Hr|n s0 s w k HG _ IH]; simpl.
  - apply obeys_mono with (S m); [lia|].
    constructor; [by eapply HQ | intros _ s'; by eapply Hf].
  - constructor; [done|]. intros err s'. apply IH.
Qed.

Lemma obeys_then {A B} (G : task -> task -> Prop)
  (Q : task -> task -> result A -> Prop) (Q' : task -> task -> result B -> Prop)
  (n m : nat) (s0 : task) (o : outcome A) (f : A -> task -> outcome B) :
  obeys G Q n s0 o ->
  (forall a b r, Q a b r -> G a b) ->
  (forall s e, Q' s s (Rejected e)) ->
  (forall v s, obeys G Q' m s (caught (f v s))) ->
  obeys G Q' (n + S m) s0 (then_ o f).
Proof.
  intros H HQ Hrej Hf. eapply obeys_react; [done..|].
  intros a b [v|e] s _; [apply Hf|]. constructor. apply Hrej.
Qed.

Lemma obeys_pending_inv {A} (G : task -> task -> Prop)
  (Q : task -> task -> result A -> Prop) (n : nat) (s0 s : task)
  (w : wait_on) (k : option error -> task -> outcome A) :
  obeys G Q n s0 (Pending s w k) ->
  G s0 s /\ forall err s', obeys G Q (pred n) s' (k err s').
Proof.
  intros H. inversion H; subst. done.
Qed.

Lemma obeys_settled_inv {A} (G : task -> task -> Prop)
  (Q : task -> task -> result A -> Prop) (n : nat) (s0 s : task) (r : result A) :
  obeys G Q n s0 (Settled s r) -> Q s0 s r.
Proof.
  intros H. by inversion H.
Qed.

Lemma obeys_not_threw {A} (G : task -> task -> Prop)
  (Q : task -> task -> result A -> Prop) (n : nat) (s0 s : task) (e : error) :
  ~ obeys G Q n s0 (Threw s e).
Proof.
  intros H. inversion H.
Qed.

(** A promise that obeys settles once it has been fed [n] events. *)
Lemma obeys_run_alone {A} (G : task -> task -> Prop)
  (Q : task -> task -> result A -> Prop) (n : nat) (s0 : task) (o : outcome A)
  (replies : list (option error)) :
  obeys G Q n s0 o -> n <= length replies ->
  exists s r, run_alone replies o = Settled s r.
Proof.
  intros H. revert replies.
  induction H as [n s0 s r Hr|n s0 s w k HG _ IH]; intros replies Hlen.
  - exists s, r. by destruct replies.
  - destruct replies as [|err rest]; simpl in *; [lia|].
    apply IH. lia.
Qed.

Lemma run_alone_app {A} (a b : list (option error)) (o : outcome A) :
  run_alone (a ++ b) o = run_alone b (run_alone a o).
Proof.
  revert o. induction a as [|err a IH]; intros o; [done|].
  destruct o as [s e|s r|s w k]; simpl.
  - by destruct b.
  - by destruct b.
  - apply IH.
Qed.

(** A promise that obeys still obeys after it has been fed some events. *)
Lemma obeys_run {A} (G : task -> task -> Prop)
  (Q : task -> task -> result A -> Prop) (n : nat) (s0 : task) (o : outcome A)
  (replies : list (option error)) :
  obeys G Q n s0 o -> exists s1, obeys G Q n s1 (run_alone replies o).
Proof.
  revert n s0 o. induction replies as [|err rest IH]; intros n s0 o H.
  - exists s0. by destruct o.
  - destruct o as [s e|s r|s w k]; simpl.
    + by exists s0.
    + by exists s0.
    + destruct n as [|n]; [by inversion H|].
      apply obeys_pending_inv in H as [_ H].
      destruct (IH n s (k err s) (H err s)) as [s1 H1].
      exists s1. eapply obeys_mono; [|exact H1]. lia.
Qed.

(** Fed events with no other activity in between, a promise whose parts
    only add to the trace only adds to the trace. *)
Lemma obeys_trace_grows {A} (G : task -> task -> Prop)
  (Q : task -> task -> result A -> Prop) (n : nat) (s0 : task) (o : outcome A)
  (replies : list (option error)) :
  (forall a b, G a b -> exists tr, trace b = trace a ++ tr) ->
  (forall a b r, Q a b r -> exists tr, trace b = trace a ++ tr) ->
  obeys G Q n s0 o ->
  exists tr, trace (state_of (run_alone replies o)) = trace (state_of o) ++ tr.
Proof.
  intros HG HQ. revert n s0 o. induction replies as [|err rest IH]; intros n s0 o H.
  - exists []. rewrite app_nil_r. by destruct o.
  - destruct o as [s e|s r|s w k]; simpl.
    + exists []. by rewrite app_nil_r.
    + exists []. by rewrite app_nil_r.
    + apply obeys_pending_inv in H as [_ H]. specialize (H err s).
      destruct (IH _ _ _ H) as [tr Htr].
      assert (Hk : exists tr0, trace (state_of (k err s)) = trace s ++ tr0).
      { inversion H; subst; simpl; eauto. }
      destruct Hk as [tr0 Hk]. exists (tr0 ++ tr).
      by rewrite Htr, Hk, app_assoc.
Qed.

(** ** What the methods leave alone *)

Lemma quiet_refl (s : task) : quiet s s.
Proof. split; [done|]. split; [done|]. exists []. by rewrite app_nil_r. Qed.

Lemma quiet_trans (a b c : task) : quiet a b -> quiet b c -> quiet a c.
Proof.
  intros (H1 & H2 & t1 & H3) (H4 & H5 & t2 & H6).
  split; [congruence|]. split; [auto|].
  exists (t1 ++ t2). by rewrite H6, H3, app_assoc.
Qed.

Lemma quiet_adds (s0 s : task) (tr : list effect) :
  serverRestartPromise s = serverRestartPromise s0 -> app s = app s0 ->
  trace s = trace s0 ++ tr -> quiet s0 s.
Proof.
  intros H1 H2 H3. split; [done|]. split; [|by exists tr].
  unfold compressed. by rewrite H2.
Qed.

Lemma quiet_same (s0 s : task) :
  serverRestartPromise s = serverRestartPromise s0 -> app s = app s0 ->
  trace s = trace s0 -> quiet s0 s.
Proof.
  intros H1 H2 H3. apply (quiet_adds s0 s []); [done..|]. by rewrite app_nil_r.
Qed.

Lemma quiet_step (f : task -> task) (s0 s : task) :
  (forall t, quiet t (f t)) -> quiet s0 s -> quiet s0 (f s).
Proof. intros Hf H. eapply quiet_trans; [exact H | apply Hf]. Qed.

Lemma quiet_record (e : effect) (s : task) : quiet s (record e s).
Proof. by apply (quiet_adds s (record e s) [e]). Qed.

Lemma quiet_use (m : middleware) (s : task) : quiet s (use m s).
Proof.
  unfold use. destruct (app s) as [a|] eqn:E; [|apply quiet_refl].
  split; [done|]. split; [|by eexists].
  intros (a' & rest & Ha & Hst). rewrite E in Ha. injection Ha as <-.
  exists {| app_id := app_id a; stack := stack a ++ [m] |}, (rest ++ [m]).
  split; [done|]. simpl. by rewrite Hst.
Qed.

Lemma quiet_fold_use (ms : list middleware) (s : task) :
  quiet s (fold_left (fun s m => use m s) ms s).
Proof.
  revert s. induction ms as [|m ms IH]; intros s; simpl; [apply quiet_refl|].
  eapply quiet_trans; [apply quiet_use | apply IH].
Qed.

Lemma quiet_fold_destroy (l : list nat) (s : task) :
  quiet s (fold_left (fun s socket => record (Destroy socket) s) l s).
Proof.
  revert s. induction l as [|x l IH]; intros s; simpl; [apply quiet_refl|].
  eapply quiet_trans; [apply quiet_record | apply IH].
Qed.

Lemma compressed_express (s : task) : compressed (use Compression (express s)).
Proof. unfold use, express. simpl. by eexists _, []. Qed.

Lemma quiet_invalidateCache (env : environment) (root : string) (s : task) :
  quiet s (invalidateCache env root s).
Proof. by eapply quiet_adds. Qed.

Lemma quiet_express (s : task) : quiet s (use Compression (express s)).
Proof.
  split; [done|]. split; [intros _; apply compressed_express|].
  eexists. unfold use, express. simpl. by rewrite <- app_assoc.
Qed.


Lemma express_slot (s : task) :
  serverRestartPromise (use Compression (express s)) = serverRestartPromise s.
Proof. reflexivity. Qed.

Lemma setupHttpServer_quiet (env : environment) (s s' : task) :
  setupHttpServer env s = inr s' -> quiet s s'.
Proof.
  unfold setupHttpServer, createHttpsServer, createServer.
  destruct (ssl (startOptions s)).
  - destruct (negb (existsSync env (sslKey (startOptions s)))); [discriminate|].
    destruct (negb (existsSync env (sslCert (startOptions s)))); [discriminate|].
    intros H. injection H as <-. by eapply quiet_adds.
  - intros H. injection H as <-. by eapply quiet_adds.
Qed.

(** ** The methods obey *)

Lemma obeys_await {A} (G : task -> task -> Prop) (Q : task -> task -> result A -> Prop)
  (n : nat) (s0 s : task) (w : wait_on) (k : option error -> task -> outcome A) :
  G s0 s ->
  (forall err s', obeys G Q n s' (k err (record (Reply w err) s'))) ->
  obeys G Q (S n) s0 (await s w k).
Proof. intros HG Hk. by constructor. Qed.

Lemma invoke_obeys (c : collaborator) (f : callable) (s0 s : task) :
  quiet s0 s -> obeys quiet ends_quiet 1 s0 (caught (invoke c f s)).
Proof.
  intros Hq. unfold invoke.
  assert (H1 : quiet s0 (fold_left (fun s m => use m s) (mounts f) s)).
  { eapply quiet_trans; [exact Hq | apply quiet_fold_use]. }
  destruct (completes f); simpl.
  - by constructor.
  - by constructor.
  - apply obeys_await; [done|]. intros [e|] s'; constructor; apply quiet_record.
Qed.

Lemma processAppMiddlewares_obeys (s : task) :
  obeys quiet ends_quiet 1 s (caught (processAppMiddlewares s)).
Proof.
  unfold processAppMiddlewares.
  destruct (server_module s) as [[e| |n body]|]; simpl.
  - constructor. apply quiet_refl.
  - constructor. apply quiet_refl.
  - destruct (n =? 3).
    + constructor. apply quiet_use.
    + apply invoke_obeys. apply quiet_record.
  - constructor. apply quiet_refl.
Qed.

Lemma ends_quiet_quiet (a b : task) (r : result unit) : ends_quiet a b r -> quiet a b.
Proof. done. Qed.

Lemma series_obeys {X} (iterator : X -> task -> outcome unit) (array : list X)
  (n : nat) (s0 : task) (current : outcome unit) :
  (forall x s, obeys quiet ends_quiet 1 s (caught (iterator x s))) ->
  obeys quiet ends_quiet n s0 current ->
  obeys quiet ends_quiet (n + 2 * length array) s0
    (fold_left (fun current x => then_ current (fun _ => iterator x)) array current).
Proof.
  intros Hit. revert n current.
  induction array as [|x array IH]; intros n current H; simpl.
  - by replace (n + 0) with n by lia.
  - replace (n + S (length array + S (length array + 0)))
      with ((n + 2) + 2 * length array) by lia.
    apply IH. apply (obeys_then quiet ends_quiet ends_quiet); [done|apply ends_quiet_quiet| |].
    + intros s e. apply quiet_refl.
    + intros _ s. apply Hit.
Qed.

Lemma mapSeries_obeys {X} (iterator : X -> task -> outcome unit) (array : list X)
  (s0 s : task) :
  (forall x s, obeys quiet ends_quiet 1 s (caught (iterator x s))) ->
  quiet s0 s ->
  obeys quiet ends_quiet (2 * length array + 1) s0 (mapSeries array iterator s).
Proof.
  intros Hit Hq. unfold mapSeries.
  replace (2 * length array + 1) with ((0 + 2 * length array) + 1) by lia.
  apply (obeys_then quiet ends_quiet ends_quiet); [|apply ends_quiet_quiet| |].
  - apply series_obeys; [done|]. by constructor.
  - intros s1 e. apply quiet_refl.
  - intros _ s1. constructor. apply quiet_refl.
Qed.

Lemma processAddonMiddlewares_obeys (env : environment) (s : task) :
  obeys quiet ends_quiet (2 * length (addons env) + 1) s
    (processAddonMiddlewares env s).
Proof.
  unfold processAddonMiddlewares. apply mapSeries_obeys; [|apply quiet_record].
  intros addon s'. destruct (serverMiddleware addon).
  - apply invoke_obeys. apply quiet_record.
  - constructor. apply quiet_refl.
Qed.

Lemma caught_obeys {A} (G : task -> task -> Prop) (Q : task -> task -> result A -> Prop)
  (n : nat) (s0 : task) (o : outcome A) :
  obeys G Q n s0 o -> caught o = o.
Proof. by destruct 1. Qed.

Lemma listen_obeys (port : Z) (host : option string) (s : task) :
  obeys quiet ends_quiet 1 s (listen port host s).
Proof.
  unfold listen. destruct (httpServer s).
  - apply obeys_await; [apply quiet_record|].
    intros [e|] s'; constructor.
    + apply quiet_record.
    + eapply quiet_trans; apply quiet_record.
  - constructor. apply quiet_refl.
Qed.

Lemma startHttpServer_obeys (env : environment) (s : task) :
  obeys quiet ends_quiet (build_bound env) s (caught (startHttpServer env s)).
Proof.
  unfold startHttpServer.
  destruct (setupHttpServer env (use Compression (express s))) as [e|s2] eqn:E; simpl.
  - constructor. apply quiet_express.
  - apply setupHttpServer_quiet in E.
    assert (H3 : quiet s (set_startOptions (with_httpServer (httpServer s2) (startOptions s2)) s2)).
    { eapply quiet_trans; [apply quiet_express|].
      eapply quiet_trans; [exact E|]. by apply quiet_same. }
    unfold build_bound.
    replace (2 * length (addons env) + 7)
      with (((0 + 2) + S (2 * length (addons env) + 1)) + 3) by lia.
    assert (Hrej : forall (s1 : task) (e : error), ends_quiet s1 s1 (Rejected e)).
    { intros s1 e. apply quiet_refl. }
    apply (obeys_then quiet ends_quiet ends_quiet); [|apply ends_quiet_quiet|done|].
    + apply (obeys_then quiet ends_quiet ends_quiet); [|apply ends_quiet_quiet|done|].
      * apply (obeys_then quiet ends_quiet ends_quiet); [by constructor|apply ends_quiet_quiet|done|].
        intros _ s'. apply processAppMiddlewares_obeys.
      * intros _ s'. erewrite caught_obeys; apply processAddonMiddlewares_obeys.
    + intros _ s'.
      assert (Hc : obeys quiet ends_quiet (1 + 1) s'
        (catch_ (listen (port (startOptions s')) (host (startOptions s')) s')
           (fun _ s'' => Threw s'' (bind_failure (startOptions s''))))).
      { eapply obeys_react; [apply listen_obeys|apply ends_quiet_quiet|].
        intros a b [v|e] s1 _; simpl; constructor; apply quiet_refl. }
      erewrite caught_obeys; exact Hc.
Qed.

Lemma obeys_from (n : nat) (s0 s : task) (o : outcome unit) :
  quiet s0 s -> obeys quiet ends_quiet n s o -> obeys quiet ends_quiet n s0 o.
Proof.
  intros Hq H. inversion H; subst; constructor; try done.
  - eapply quiet_trans; [exact Hq | done].
  - eapply quiet_trans; [exact Hq | done].
Qed.

Lemma stopHttpServer_obeys (s : task) :
  obeys quiet ends_quiet 1 s (stopHttpServer s).
Proof.
  unfold stopHttpServer. destruct (httpServer s) as [server|].
  - apply obeys_await.
    + eapply quiet_trans; [apply quiet_record | apply quiet_fold_destroy].
    + intros [e|] s'; constructor.
      * apply quiet_record.
      * eapply quiet_trans; [apply quiet_record | by apply quiet_same].
  - constructor. apply quiet_refl.
Qed.

Lemma restart_attempt_obeys (env : environment) (s : task) :
  obeys quiet ends_quiet (build_bound env + 3) s (restart_attempt env s).
Proof.
  unfold restart_attempt.
  replace (build_bound env + 3) with ((1 + S (build_bound env)) + 1) by lia.
  assert (Hrej : forall (s1 : task) (e : error), ends_quiet s1 s1 (Rejected e)).
  { intros s1 e. apply quiet_refl. }
  apply (obeys_then quiet ends_quiet ends_quiet); [|apply ends_quiet_quiet|done|].
  - apply (obeys_then quiet ends_quiet ends_quiet);
      [apply stopHttpServer_obeys|apply ends_quiet_quiet|done|].
    intros _ s'. eapply obeys_from; [apply quiet_invalidateCache|].
    apply startHttpServer_obeys.
  - intros _ s'. constructor.
    eapply quiet_trans; [apply quiet_record|].
    eapply quiet_trans; [apply quiet_record|].
    eapply quiet_trans; apply quiet_record.
Qed.

Lemma restart_cycle_obeys (env : environment) (s : task) :
  obeys quiet ends_restart (cycle_bound env) s (restart_cycle env s).
Proof.
  unfold restart_cycle, finally_, catch_.
  replace (cycle_bound env) with (((build_bound env + 3) + 1) + 1)
    by (unfold cycle_bound, build_bound; lia).
  apply (obeys_react quiet (fun a b r => quiet a b /\ r = Fulfilled tt) ends_restart).
  - apply (obeys_react quiet ends_quiet (fun a b r => quiet a b /\ r = Fulfilled tt));
      [apply restart_attempt_obeys|apply ends_quiet_quiet|].
    intros a b [[]|e] s1 _; simpl; constructor.
    + split; [apply quiet_refl | done].
    + split; [apply quiet_record | done].
  - by intros a b r [H _].
  - intros a b r s1 [_ ->]. simpl. constructor.
    split; [done|]. split; [done|]. unfold compressed. done.
Qed.

Lemma restart_cycle_pending (env : environment) (s : task) :
  exists s1 w k, restart_cycle env s = Pending s1 w k.
Proof.
  unfold restart_cycle, restart_attempt, finally_, catch_, then_, stopHttpServer.
  destruct (httpServer s); simpl; by eexists _, _, _.
Qed.

Lemma start_obeys (env : environment) (options : start_options) (s : task) :
  compressed (state_of (start env options s))
  /\ obeys quiet ends_quiet (build_bound env + 1) s (caught (start env options s)).
Proof.
  unfold start.
  pose proof (startHttpServer_obeys env (set_startOptions options s)) as H.
  assert (Hc : compressed (state_of (startHttpServer env (set_startOptions options s)))).
  { unfold startHttpServer.
    destruct (setupHttpServer env _) as [e|s2] eqn:E; simpl.
    - apply compressed_express.
    - apply setupHttpServer_quiet in E. destruct E as (_ & E & _).
      destruct (E (compressed_express _)) as (a & rest & Ha & Hs). by exists a, rest. }
  assert (Hgen : forall o,
    obeys quiet ends_quiet (build_bound env) (set_startOptions options s) o ->
    obeys quiet ends_quiet (build_bound env + 1) s
      (then_ o (fun _ s' =>
         Settled (record (UiWriteLine (serving_line env (startOptions s'))) s')
           (Fulfilled tt)))).
  { intros o Ho.
    apply (obeys_then quiet ends_quiet ends_quiet (build_bound env) 0);
      [|apply ends_quiet_quiet| |].
    - eapply obeys_from; [|exact Ho]. by apply quiet_same.
    - intros s2 e. apply quiet_refl.
    - intros _ s2. simpl. constructor. apply quiet_record. }
  destruct (startHttpServer env (set_startOptions options s)) as [s1 e|s1 r|s1 w k] eqn:E.
  - simpl in *. split; [done|]. constructor. apply obeys_settled_inv in H.
    eapply quiet_trans; [|exact H]. by apply quiet_same.
  - split; [done|]. simpl in H. erewrite caught_obeys; by apply Hgen.
  - split; [done|]. simpl in H. erewrite caught_obeys; by apply Hgen.
Qed.

(** ** The invariant of the event loop *)

Lemma invariant_restartHttpServer (env : environment) (rq : nat) (todo : list nat)
  (w : world) :
  invariant (rq :: todo) w -> invariant todo (restartHttpServer env rq w).
Proof.
  intros [Hc Hch Hslot Htick Hres]. unfold restartHttpServer.
  unfold current_request in Htick.
  destruct (serverRestartPromise (this w)) as [p|] eqn:Eslot.
  - (* a restart is executing: the request is queued *)
    destruct Hslot as (Hcur & Huniq & Hall).
    constructor; simpl; try done.
    + rewrite Eslot. split; [done|]. split; [done|].
      apply Forall_app. split; [done|]. by constructor.
    + unfold current_request, queued_requests in *. simpl. rewrite Eslot.
      rewrite map_app. simpl. rewrite <- Htick.
      rewrite <- !app_assoc. done.
  - (* no restart is executing: a cycle begins *)
    destruct Hslot as (Hinit & Hnil).
    destruct (restart_cycle_pending env (this w)) as (s1 & wt & k & Hk).
    pose proof (restart_cycle_obeys env (this w)) as Hob.
    rewrite Hk in *. apply obeys_pending_inv in Hob as [(Hq1 & Hq2 & _) Hcont].
    simpl. constructor; simpl.
    + destruct (Hq2 Hc) as (a & rest & Ha & Hs). by exists a, rest.
    + intros q c. rewrite lookup_insert. case_decide as Hpq.
      * intros [= <-]. subst q. split; [lia|]. eexists. simpl. exact Hcont.
      * intros Hq. destruct (Hch q c Hq) as [Hlt Hob]. split; [lia | done].
    + split; [|split].
      * eexists _, rq. by rewrite lookup_insert_eq.
      * intros q c. rewrite lookup_insert. case_decide as Hpq; [done|].
        intros Hq Hne. by apply Hinit in Hq.
      * rewrite Hnil. constructor.
    + unfold current_request, queued_requests in *. simpl.
      rewrite lookup_insert_eq. simpl. rewrite Hnil in *. simpl in *. done.
    + done.
Qed.

Lemma invariant_reactions (env : environment) (l : list (nat * nat))
  (todo : list nat) (w : world) :
  invariant (map snd l ++ todo) w ->
  invariant todo (fold_left (fun w r => restartHttpServer env (snd r) w) l w).
Proof.
  revert w. induction l as [|r l IH]; intros w H; simpl in *; [done|].
  apply IH. by apply invariant_restartHttpServer.
Qed.

Lemma filter_all {A} (P : A -> Prop) `{!forall x, Decision (P x)} (l : list A) :
  Forall P l -> filter P l = l.
Proof.
  induction 1 as [|x l Hx _ IH]; [done|].
  rewrite filter_cons. rewrite decide_True; [|done]. by rewrite IH.
Qed.

Lemma filter_none {A} (P : A -> Prop) `{!forall x, Decision (P x)} (l : list A) :
  Forall (fun x => ~ P x) l -> filter P l = [].
Proof.
  induction 1 as [|x l Hx _ IH]; [done|].
  rewrite filter_cons. by rewrite decide_False.
Qed.

Lemma invariant_request_restart (env : environment) (w : world) :
  invariant [] w -> invariant [] (request_restart env w).
Proof.
  intros [Hc Hch Hslot Htick Hres]. unfold request_restart.
  apply invariant_restartHttpServer. constructor; try done.
  unfold current_request, queued_requests, settled_requests in *. cbn -[seq].
  rewrite seq_S. cbn -[seq]. rewrite <- Htick. rewrite !app_nil_r.
  by rewrite !app_assoc.
Qed.

Lemma settled_requests_app (w : world) (v : list (owner * final)) (x : owner * final) :
  flat_map (fun x => request_of (fst x)) (v ++ [x])
  = flat_map (fun x => request_of (fst x)) v ++ request_of (fst x).
Proof. rewrite flat_map_app. simpl. by rewrite app_nil_r. Qed.

Lemma final_of_result (who : owner) (s : task) (r : result unit) (w : world) :
  exists f, adopt 0 who (Settled s r) w = set_settled (settled w ++ [(who, f)]) (set_this s w)
    /\ (r = Fulfilled tt -> f = Resolved).
Proof.
  destruct r as [[]|e]; simpl; eexists; split; try reflexivity. done.
Qed.

Lemma adopt_settled (p : nat) (who : owner) (s : task) (r : result unit) (w : world) :
  exists f, adopt p who (Settled s r) w = set_settled (settled w ++ [(who, f)]) (set_this s w)
    /\ (r = Fulfilled tt -> f = Resolved).
Proof.
  destruct r as [[]|e]; simpl; eexists; split; try reflexivity. done.
Qed.

Lemma invariant_deliver (env : environment) (p : nat) (err : option error) (w : world) :
  invariant [] w -> invariant [] (deliver env p err w).
Proof.
  intros [Hc Hch Hslot Htick Hres]. unfold deliver.
  destruct (pending w !! p) as [c|] eqn:Ep; [|by constructor].
  destruct (Hch p c Ep) as [Hlt [n Hob]]. specialize (Hob err (this w)).
  unfold current_request in Htick.
  destruct (resume c err (this w)) as [s e|s r|s wt k] eqn:Eo.
  - by apply obeys_not_threw in Hob.
  - apply obeys_settled_inv in Hob.
    destruct (adopt_settled p (chain_owner c) s r (set_pending (delete p (pending w)) w))
      as (f & -> & Hf).
    unfold run_reactions. simpl.
    destruct (chain_owner c) as [|rq] eqn:Eown.
    + (* the promise of start ends *)
      destruct Hob as (Hq1 & Hq2 & _).
      assert (Hnot : Forall (fun r => ~ fst r = p) (reactions w)).
      { destruct (serverRestartPromise (this w)) as [q|].
        - destruct Hslot as ((c' & rq & Hq & Hown) & _ & Hall).
          eapply Forall_impl; [exact Hall|]. simpl. intros x -> ->. congruence.
        - destruct Hslot as [_ ->]. constructor. }
      rewrite (filter_none _ _ Hnot). rewrite (filter_all (fun r => fst r <> p) _ Hnot).
      simpl. constructor; simpl.
      * destruct (Hq2 Hc) as (a & rest & Ha & Hs). by exists a, rest.
      * intros q c'. rewrite lookup_delete. case_decide; [done|]. apply Hch.
      * rewrite Hq1. destruct (serverRestartPromise (this w)) as [q|].
        -- destruct Hslot as ((c' & rq & Hq & Hown) & Huniq & Hall).
           assert (q <> p) by (intros ->; congruence).
           split; [|split; [|done]].
           ++ exists c', rq. by rewrite lookup_delete_ne.
           ++ intros q' c''. rewrite lookup_delete. case_decide; [done|]. apply Huniq.
        -- destruct Hslot as [Hinit Hnil]. split; [|done].
           intros q c'. rewrite lookup_delete. case_decide; [done|]. apply Hinit.
      * unfold current_request, settled_requests, queued_requests in *. simpl.
        rewrite flat_map_app. simpl. rewrite app_nil_r. rewrite Hq1.
        destruct (serverRestartPromise (this w)) as [q|]; [|done].
        destruct Hslot as ((c' & rq & Hq & Hown) & _).
        assert (q <> p) by (intros ->; congruence).
        by rewrite lookup_delete_ne.
      * intros rq f' Hin. apply elem_of_app in Hin as [Hin|Hin]; [by eapply Hres|].
        apply list_elem_of_singleton in Hin. congruence.
    + (* the promise of a restart ends *)
      destruct Hob as (-> & Hnone & Hcomp). specialize (Hf eq_refl). subst f.
      assert (Hp : serverRestartPromise (this w) = Some p).
      { destruct (serverRestartPromise (this w)) as [q|].
        - destruct Hslot as (_ & Huniq & _). f_equal. symmetry.
          apply (Huniq p c Ep). congruence.
        - destruct Hslot as [Hinit _]. apply Hinit in Ep. congruence. }
      rewrite Hp in *. destruct Hslot as (_ & Huniq & Hall). rewrite Ep, Eown in Htick.
      rewrite (filter_all _ _ Hall).
      assert (Hnot : Forall (fun r => ~ fst r <> p) (reactions w)).
      { eapply Forall_impl; [exact Hall|]. simpl. intros x -> Hx. done. }
      rewrite (filter_none (fun r => fst r <> p) _ Hnot).
      apply invariant_reactions. constructor; simpl.
      * destruct (Hcomp Hc) as (a & rest & Ha & Hs). by exists a, rest.
      * intros q c'. rewrite lookup_delete. case_decide; [done|]. apply Hch.
      * rewrite Hnone. split; [|done].
        intros q c'. rewrite lookup_delete. case_decide as Hpq; [done|]. intros Hq.
        destruct (chain_owner c') eqn:E'; [done|].
        exfalso. apply Hpq. symmetry. apply (Huniq q c' Hq). congruence.
      * unfold current_request, settled_requests, queued_requests in *. simpl.
        rewrite flat_map_app. simpl. rewrite Hnone.
        rewrite <- Htick. simpl. rewrite <- !app_assoc. done.
      * intros rq' f' Hin. apply elem_of_app in Hin as [Hin|Hin]; [by eapply Hres|].
        apply list_elem_of_singleton in Hin. congruence.
  - (* the promise goes on *)
    apply obeys_pending_inv in Hob as [(Hq1 & Hq2 & _) Hcont].
    simpl. constructor; simpl.
    + destruct (Hq2 Hc) as (a & rest & Ha & Hs). by exists a, rest.
    + intros q c'. rewrite lookup_insert. case_decide as Hpq.
      * intros [= <-]. subst q. split; [done|]. eexists. simpl. exact Hcont.
      * rewrite lookup_delete_ne; [|done]. apply Hch.
    + rewrite Hq1. destruct (serverRestartPromise (this w)) as [q|].
      * destruct Hslot as ((c' & rq & Hq & Hown) & Huniq & Hall).
        split; [|split; [|done]].
        -- destruct (decide (p = q)) as [->|Hne].
           ++ eexists _, rq. rewrite lookup_insert_eq. split; [done|]. simpl. congruence.
           ++ exists c', rq. rewrite lookup_insert_ne; [|done].
              by rewrite lookup_delete_ne.
        -- intros q' c''. rewrite lookup_insert. case_decide as Hpq.
           ++ intros [= <-]. simpl. subst q'. apply (Huniq p c Ep).
           ++ rewrite lookup_delete_ne; [|done]. apply Huniq.
      * destruct Hslot as [Hinit Hnil]. split; [|done].
        intros q c'. rewrite lookup_insert. case_decide as Hpq.
        -- intros [= <-]. simpl. by apply (Hinit p c).
        -- rewrite lookup_delete_ne; [|done]. apply Hinit.
    + unfold current_request, settled_requests, queued_requests in *. simpl.
      rewrite Hq1. destruct (serverRestartPromise (this w)) as [q|]; [|done].
      destruct (decide (p = q)) as [->|Hne].
      * rewrite lookup_insert_eq. simpl. by rewrite Ep in Htick.
      * rewrite lookup_insert_ne; [|done]. by rewrite lookup_delete_ne.
    + done.
Qed.

Lemma invariant_this (f : task -> task) (w : world) :
  (forall s, app (f s) = app s) ->
  (forall s, serverRestartPromise (f s) = serverRestartPromise s) ->
  invariant [] w -> invariant [] (set_this (f (this w)) w).
Proof.
  intros Hf1 Hf2 [Hc Hch Hslot Htick Hres].
  constructor; simpl; try done.
  - unfold compressed in *. by rewrite Hf1.
  - by rewrite Hf2.
  - unfold current_request in *. simpl. by rewrite Hf2.
Qed.

Lemma invariant_clock (f : world -> world) (w : world) :
  (forall w, this (f w) = this w) -> (forall w, pending (f w) = pending w) ->
  (forall w, reactions (f w) = reactions w) -> (forall w, settled (f w) = settled w) ->
  (forall w, promises (f w) = promises w) -> (forall w, requests (f w) = requests w) ->
  invariant [] w -> invariant [] (f w).
Proof.
  intros H1 H2 H3 H4 H5 H6 [Hc Hch Hslot Htick Hres].
  constructor.
  - by rewrite H1.
  - intros p c. rewrite H2, H5. apply Hch.
  - by rewrite H1, H2, H3.
  - unfold current_request, settled_requests, queued_requests in *.
    by rewrite H1, H2, H3, H4, H6.
  - intros rq f'. rewrite H4. apply Hres.
Qed.

Lemma invariant_elapse (env : environment) (dt : Z) (w : world) :
  invariant [] w -> invariant [] (elapse env dt w).
Proof.
  intros H. unfold elapse. case_decide; [done|].
  assert (H1 : invariant [] (set_now (now w + dt) w)).
  { by apply (invariant_clock (set_now (now w + dt))). }
  simpl. destruct (lastCall w) as [t0|]; [|done].
  case_decide; [|done].
  apply invariant_request_restart.
  by apply (invariant_clock (set_lastCall None)).
Qed.

Lemma invariant_step (env : environment) (ev : event) (w : world) :
  invariant [] w -> invariant [] (step env ev w).
Proof.
  intros H. destruct ev; simpl.
  - by apply invariant_deliver.
  - by apply (invariant_this (on_connection socket)).
  - by apply (invariant_this (on_socket_close socketId)).
  - by apply (invariant_clock serverWatcherDidChange).
  - by apply invariant_elapse.
  - by apply invariant_request_restart.
  - by apply (invariant_this (set_server_module m)).
  - by apply (invariant_this (fun s => set_require_cache (<[key := m]> (require_cache s)) s)).
Qed.

Lemma invariant_boot (env : environment) (options : start_options)
  (disk : option server_export) :
  invariant [] (boot env options disk).
Proof.
  unfold boot.
  destruct (start_obeys env options (created options disk)) as [Hc Hob].
  assert (Hs : forall s, quiet (created options disk) s ->
    serverRestartPromise s = None).
  { by intros s [-> _]. }
  destruct (start env options (created options disk)) as [s e|s r|s wt k] eqn:E;
    simpl in Hc, Hob.
  - apply obeys_settled_inv in Hob. simpl.
    constructor; simpl; try done.
    + by rewrite (Hs s Hob).
    + unfold current_request. simpl. by rewrite (Hs s Hob).
    + intros rq f Hin. apply list_elem_of_singleton in Hin. congruence.
  - apply obeys_settled_inv in Hob.
    destruct (adopt_settled 0 Initial s r
      {| this := created options disk; pending := ∅; reactions := [];
         settled := []; promises := 1; requests := 0; now := 0; lastCall := None |})
      as (f & -> & _).
    constructor; simpl; try done.
    + by rewrite (Hs s Hob).
    + unfold current_request. simpl. by rewrite (Hs s Hob).
    + intros rq f' Hin. apply list_elem_of_singleton in Hin. congruence.
  - apply obeys_pending_inv in Hob as [Hq Hcont]. simpl.
    constructor; simpl; try done.
    + intros p c. rewrite lookup_insert. case_decide; [|done].
      intros [= <-]. subst p. split; [lia|]. eexists. simpl. exact Hcont.
    + rewrite (Hs s Hq). split; [|done].
      intros p c. rewrite lookup_insert. case_decide; [|done]. by intros [= <-].
    + unfold current_request. simpl. by rewrite (Hs s Hq).
    + intros rq f Hin. by apply elem_of_nil in Hin.
Qed.

Lemma invariant_run (env : environment) (events : list event) (w : world) :
  invariant [] w -> invariant [] (run env events w).
Proof.
  revert w. induction events as [|ev events IH]; intros w H; [done|].
  simpl. apply IH. by apply invariant_step.
Qed.

Lemma invariant_reachable (env : environment) (options : start_options)
  (disk : option server_export) (events : list event) :
  invariant [] (run env events (boot env options disk)).
Proof. apply invariant_run, invariant_boot. Qed.

(** ** The events of a build *)

Lemma mounted_only_refl (s : task) (a : application) :
  app s = Some a -> mounted_only s s [].
Proof.
  intros Ha. constructor; try done.
  - by rewrite app_nil_r.
  - exists a. split; [done|]. by exists a.
Qed.

Lemma mounted_only_trans (s1 s2 s3 : task) (t1 t2 : list effect) :
  mounted_only s1 s2 t1 -> mounted_only s2 s3 t2 -> mounted_only s1 s3 (t1 ++ t2).
Proof.
  intros [H1 H2 H3 H4 H5 H6 H7 H8 H9 H10] [K1 K2 K3 K4 K5 K6 K7 K8 K9 K10].
  constructor; try congruence.
  - rewrite K1, H1. by rewrite app_assoc.
  - destruct H2 as (a & Ha & a' & Ha' & Hid).
    destruct K2 as (b & Hb & b' & Hb' & Hid').
    exists a. split; [done|]. exists b'. split; [done|]. congruence.
Qed.

Lemma mounted_only_record (e : effect) (s : task) (a : application) :
  app s = Some a -> mounted_only s (record e s) [e].
Proof.
  intros Ha. constructor; try done.
  exists a. split; [done|]. by exists a.
Qed.

Lemma mounted_only_use (m : middleware) (s : task) (a : application) :
  app s = Some a -> mounted_only s (use m s) [Use (app_id a) m].
Proof.
  intros Ha. unfold use. rewrite Ha. constructor; try done.
  exists a. split; [done|]. by eexists.
Qed.

Lemma mounted_only_records (tr : list effect) (s : task) (a : application) :
  app s = Some a ->
  mounted_only s (fold_left (fun s e => record e s) tr s) tr.
Proof.
  revert s. induction tr as [|e tr IH]; intros s Ha; simpl.
  - by eapply mounted_only_refl.
  - apply (mounted_only_trans _ (record e s) _ [e] tr).
    + by eapply mounted_only_record.
    + by apply IH.
Qed.

Lemma mounted_only_app (s s' : task) (tr : list effect) (a : application) :
  mounted_only s s' tr -> app s = Some a ->
  exists a', app s' = Some a' /\ app_id a' = app_id a.
Proof.
  intros [_ (b & Hb & b' & Hb' & Hid) _ _ _ _ _ _ _ _] Ha.
  exists b'. split; [done|]. congruence.
Qed.

Lemma mounted_only_fold_use (ms : list middleware) (s : task) (a : application) :
  app s = Some a ->
  mounted_only s (fold_left (fun s m => use m s) ms s) (map (Use (app_id a)) ms).
Proof.
  revert s a. induction ms as [|m ms IH]; intros s a Ha; simpl.
  - by eapply mounted_only_refl.
  - pose proof (mounted_only_use m s a Ha) as H1.
    destruct (mounted_only_app _ _ _ _ H1 Ha) as (a' & Ha' & Hid).
    pose proof (IH _ _ Ha') as H2. rewrite Hid in H2.
    apply (mounted_only_trans _ _ _ [_] _ H1 H2).
Qed.

Lemma finishes_settled_inv {A} (s s' : task) (r r' : result A) :
  finishes (Settled s r) s' r' -> s' = s /\ r' = r.
Proof. intros H. by inversion H. Qed.

Lemma the_app_some (s : task) (a : application) :
  app s = Some a -> the_app s = app_id a.
Proof. unfold the_app. by intros ->. Qed.

Lemma invoke_finishes (who : collaborator) (f : callable) (s s' : task)
  (a : application) (r : result unit) :
  app s = Some a ->
  finishes (caught (invoke who f s)) s' r ->
  exists tr, mounted_only s s' tr /\ call_trace who (app_id a) f tr r.
Proof.
  intros Ha. unfold invoke.
  pose proof (mounted_only_fold_use (mounts f) s a Ha) as H1.
  destruct (mounted_only_app _ _ _ _ H1 Ha) as (a' & Ha' & Hid).
  destruct (completes f) as [|e|] eqn:E; simpl; intros H; inversion H; subst.
  - eexists. split; [exact H1|]. by constructor.
  - eexists. split; [exact H1|]. by constructor.
  - match goal with H : finishes (match err with _ => _ end) _ _ |- _ =>
      destruct err as [e|]; inversion H; subst end.
    + eexists. split; [|by apply call_rejects].
      eapply mounted_only_trans; [exact H1|]. by eapply mounted_only_record.
    + eexists. split; [|by apply call_resolves].
      eapply mounted_only_trans; [exact H1|]. by eapply mounted_only_record.
Qed.

Lemma processAppMiddlewares_finishes (s s' : task) (a : application) (r : result unit) :
  app s = Some a ->
  finishes (caught (processAppMiddlewares s)) s' r ->
  exists tr, mounted_only s s' tr
    /\ module_phase (app_id a) (startOptions s) (server_module s) tr r.
Proof.
  intros Ha. unfold processAppMiddlewares.
  destruct (server_module s) as [[e| |n body]|]; simpl.
  - intros H. inversion H; subst. eexists. split; [by eapply mounted_only_refl|].
    constructor.
  - intros H. inversion H; subst. eexists. split; [by eapply mounted_only_refl|].
    constructor.
  - destruct (n =? 3) eqn:En; simpl.
    + apply Nat.eqb_eq in En as ->.
      intros H. inversion H; subst. eexists. split; [by apply mounted_only_use|].
      constructor.
    + apply Nat.eqb_neq in En. intros H.
      apply (invoke_finishes _ _ _ _ a) in H as (tr & Hmo & Hcall); [|done].
      eexists. split.
      * eapply mounted_only_trans; [|exact Hmo]. by eapply mounted_only_record.
      * simpl. rewrite (the_app_some s a Ha). by constructor.
  - intros H. inversion H; subst. eexists. split; [by eapply mounted_only_refl|].
    constructor.
Qed.

Lemma series_finishes {X} (it : X -> task -> outcome unit) (l : list X)
  (current : outcome unit) (s' : task) (r : result unit) :
  finishes (fold_left (fun current x => then_ current (fun _ => it x)) l current) s' r ->
  exists s1 r1, finishes current s1 r1 /\
    match r1 with
    | Fulfilled _ => iterate it l s1 s' r
    | Rejected e => s' = s1 /\ r = Rejected e
    end.
Proof.
  revert current. induction l as [|x l IH]; intros current H; simpl in H.
  - exists s', r. split; [done|]. destruct r as [[]|e]; [constructor | done].
  - apply IH in H as (s1' & r1' & H1 & H2).
    apply finishes_then in H1 as (s1 & r1 & H0 & H1).
    exists s1, r1. split; [done|].
    destruct r1 as [v|e].
    + destruct r1' as [v'|e'].
      * destruct v'. by eapply iterate_next.
      * destruct H2 as [-> ->]. by eapply iterate_stop.
    + destruct H1 as [-> ->]. done.
Qed.

Lemma mapSeries_finishes {X} (it : X -> task -> outcome unit) (l : list X)
  (s s' : task) (r : result unit) :
  finishes (mapSeries l it s) s' r -> iterate it l s s' r.
Proof.
  unfold mapSeries. intros H.
  apply finishes_then in H as (s1 & r1 & H1 & H2).
  apply series_finishes in H1 as (s0 & r0 & H0 & H1).
  inversion H0; subst.
  destruct r1 as [[]|e].
  - simpl in H2. inversion H2; subst. done.
  - destruct H2 as [-> ->]. done.
Qed.

Lemma addons_finish (env : environment) (l : list addon) (s s' : task)
  (a : application) (r : result unit) :
  app s = Some a ->
  iterate
    (fun addon s' =>
       match serverMiddleware addon with
       | Some hook =>
           invoke (TheAddon addon) hook
             (record (InvokeAddon addon (the_app s') (startOptions s')) s')
       | None => Settled s' (Fulfilled tt)
       end) l s s' r ->
  exists tr, mounted_only s s' tr /\ addon_phase (app_id a) (startOptions s) l tr r.
Proof.
  intros Ha H. revert a Ha.
  induction H as [s|x l s s1 s' r Hx _ IH|x l s s1 e Hx]; intros a Ha.
  - exists []. split; [by eapply mounted_only_refl | constructor].
  - destruct (serverMiddleware x) as [hook|] eqn:Ehook.
    + destruct (invoke_finishes _ _
        (record (InvokeAddon x (the_app s) (startOptions s)) s) _ a _ Ha Hx)
        as (tr1 & Hmo1 & Hcall).
      assert (Hmo : mounted_only s s1 (InvokeAddon x (the_app s) (startOptions s) :: tr1)).
      { eapply (mounted_only_trans _ _ _ [_]); [|exact Hmo1].
        by eapply mounted_only_record. }
      destruct (mounted_only_app _ _ _ _ Hmo Ha) as (a1 & Ha1 & Hid).
      destruct (IH a1 Ha1) as (tr & Hmo' & Hph).
      rewrite Hid in Hph. rewrite (mo_startOptions _ _ _ Hmo) in Hph.
      exists ((InvokeAddon x (the_app s) (startOptions s) :: tr1) ++ tr).
      split; [by eapply mounted_only_trans|].
      simpl. rewrite (the_app_some s a Ha). by eapply addons_next.
    + simpl in Hx. apply finishes_settled_inv in Hx as [-> _].
      destruct (IH a Ha) as (tr & Hmo' & Hph).
      exists tr. split; [done|]. by apply addons_skip.
  - destruct (serverMiddleware x) as [hook|] eqn:Ehook.
    + destruct (invoke_finishes _ _
        (record (InvokeAddon x (the_app s) (startOptions s)) s) _ a _ Ha Hx)
        as (tr1 & Hmo1 & Hcall).
      exists (InvokeAddon x (the_app s) (startOptions s) :: tr1). split.
      * eapply (mounted_only_trans _ _ _ [_]); [|exact Hmo1].
        by eapply mounted_only_record.
      * rewrite (the_app_some s a Ha). by eapply addons_abort.
    + simpl in Hx. apply finishes_settled_inv in Hx as [_ Hx]. discriminate.
Qed.

Lemma processAddonMiddlewares_finishes (env : environment) (s s' : task)
  (a : application) (r : result unit) :
  app s = Some a ->
  finishes (processAddonMiddlewares env s) s' r ->
  exists tr, mounted_only s s' (InitializeAddons :: tr)
    /\ addon_phase (app_id a) (startOptions s) (addons env) tr r.
Proof.
  intros Ha H. unfold processAddonMiddlewares in H.
  apply mapSeries_finishes in H.
  apply (addons_finish env _ _ _ a) in H as (tr & Hmo & Hph); [|done].
  exists tr. split; [|done].
  eapply (mounted_only_trans _ _ _ [_]); [|exact Hmo].
  by eapply mounted_only_record.
Qed.

Lemma listen_finishes (s s' : task) (a : application) (server : nat) (r : result unit) :
  app s = Some a ->
  httpServer s = Some server ->
  finishes
    (caught
       (catch_ (listen (port (startOptions s)) (host (startOptions s)) s)
          (fun _ s'' => Threw s'' (bind_failure (startOptions s''))))) s' r ->
  exists tr, mounted_only s s' tr /\ listen_phase server (startOptions s) tr r.
Proof.
  intros Ha Hsrv H. unfold listen in H. rewrite Hsrv in H. simpl in H.
  inversion H as [|? ? ? err ? ? H1]; subst. clear H.
  destruct err as [e|]; simpl in H1.
  - inversion H1 as [|? ? ? err ? ? H2]; subst. simpl in H2.
    apply finishes_settled_inv in H2 as [-> ->].
    eexists. split; [|apply (listen_fails _ _ e)].
    by apply (mounted_only_records [_; _] s a).
  - inversion H1 as [|? ? ? err ? ? H2]; subst. simpl in H2.
    apply finishes_settled_inv in H2 as [-> ->].
    eexists. split; [|apply listen_succeeds].
    by apply (mounted_only_records [_; _; _] s a).
Qed.

Lemma setupHttpServer_inr (env : environment) (s s2 : task) :
  setupHttpServer env (use Compression (express s)) = inr s2 ->
  set_startOptions (with_httpServer (httpServer s2) (startOptions s2)) s2
  = build_begins env s.
Proof.
  unfold setupHttpServer, createHttpsServer, createServer, build_begins, creates.
  simpl. destruct (ssl (startOptions s)).
  - destruct (negb (existsSync env (sslKey (startOptions s)))); [discriminate|].
    destruct (negb (existsSync env (sslCert (startOptions s)))); [discriminate|].
    intros [= <-]. unfold set_startOptions, record. simpl.
    by rewrite <- !app_assoc.
  - intros [= <-]. unfold set_startOptions, record. simpl.
    by rewrite <- !app_assoc.
Qed.

Lemma startHttpServer_cases (env : environment) (s : task) :
  (exists e, setupHttpServer env (use Compression (express s)) = inl e
     /\ startHttpServer env s = Threw (use Compression (express s)) e)
  \/ startHttpServer env s =
       then_
        (then_
          (then_ (Settled (build_begins env s) (Fulfilled tt))
            (fun _ s' => processAppMiddlewares s'))
          (fun _ s' => processAddonMiddlewares env s'))
        (fun _ s' =>
           catch_ (listen (port (startOptions s')) (host (startOptions s')) s')
             (fun _ s'' => Threw s'' (bind_failure (startOptions s'')))).
Proof.
  unfold startHttpServer.
  destruct (setupHttpServer env (use Compression (express s))) as [e|s2] eqn:E.
  - left. by exists e.
  - right. by rewrite (setupHttpServer_inr env s s2 E).
Qed.

Lemma startHttpServer_finishes (env : environment) (s s' : task) (r : result unit) :
  finishes (startHttpServer env s) s' r ->
  exists tr,
    mounted_only (build_begins env s) s' tr
    /\ build_trace env (fresh s) (S (fresh s))
         (with_httpServer (Some (S (fresh s))) (startOptions s)) (server_module s) tr r.
Proof.
  intros H. destruct (startHttpServer_cases env s) as [(e & _ & E)|E]; rewrite E in H.
  { inversion H. }
  clear E.
  set (s3 := build_begins env s) in *.
  set (a := {| app_id := fresh s; stack := [Compression] |}).
  assert (Ha : app s3 = Some a) by done.
  apply finishes_then in H as (sb & rb & H & Hl).
  apply finishes_then in H as (sa & ra & H & Hb).
  apply finishes_then in H as (s0 & r0 & H & Ha').
  apply finishes_settled_inv in H as [-> ->].
  destruct (processAppMiddlewares_finishes _ _ a _ Ha Ha') as (tr1 & Hmo1 & Hph1).
  destruct ra as [[]|e].
  2:{ destruct Hb as [-> ->]. destruct Hl as [-> ->].
      exists tr1. split; [done|]. by apply build_module_fails. }
  destruct (mounted_only_app _ _ _ _ Hmo1 Ha) as (a1 & Ha1 & Hid1).
  assert (Hb' : finishes (processAddonMiddlewares env sa) sb rb).
  { apply finishes_caught in Hb as [Hb|(e & Hb & _)]; [done|].
    pose proof (processAddonMiddlewares_obeys env sa) as Hob.
    rewrite Hb in Hob. by apply obeys_not_threw in Hob. }
  destruct (processAddonMiddlewares_finishes env _ _ a1 _ Ha1 Hb') as (tr2 & Hmo2 & Hph2).
  rewrite Hid1 in Hph2. rewrite (mo_startOptions _ _ _ Hmo1) in Hph2.
  pose proof (mounted_only_trans _ _ _ _ _ Hmo1 Hmo2) as Hmo12.
  destruct rb as [[]|e].
  2:{ destruct Hl as [-> ->].
      eexists. split; [exact Hmo12|]. by apply build_addon_fails. }
  destruct (mounted_only_app _ _ _ _ Hmo12 Ha) as (a2 & Ha2 & Hid2).
  assert (Hsrv : httpServer sb = Some (S (fresh s))).
  { by rewrite (mo_httpServer _ _ _ Hmo12). }
  destruct (listen_finishes _ _ a2 _ _ Ha2 Hsrv Hl) as (tr3 & Hmo3 & Hph3).
  rewrite (mo_startOptions _ _ _ Hmo12) in Hph3.
  pose proof (mounted_only_trans _ _ _ _ _ Hmo12 Hmo3) as Hmo.
  rewrite <- app_assoc in Hmo.
  eexists. split; [exact Hmo|]. simpl. by apply build_listens.
Qed.

(** ** TLS material *)

(** [C5] With [ssl] set and the key or the certificate file missing,
    [start] throws a TypeError (the spec's ConfigurationError) whose
    message quotes the missing path: the key path when the key is missing,
    otherwise the certificate path.  Up to then only the application was
    created and the compression handler mounted: no server was created,
    nothing listens, [httpServer] is untouched and no promise is left
    pending. *)
Theorem start_fails_before_bind_when_tls_file_is_missing
  (env : environment) (options : start_options) (disk : option server_export) :
  ssl options = true ->
  existsSync env (sslKey options) = false \/ existsSync env (sslCert options) = false ->
  exists s' message missing before rest,
    start env options (created options disk) = Threw s' (TypeError message)
    /\ ConfigurationError (TypeError message)
    /\ existsSync env missing = false
    /\ (if existsSync env (sslKey options) then missing = sslCert options
        else missing = sslKey options)
    /\ message = before +:+ dquote +:+ missing +:+ dquote +:+ rest
    /\ trace s' = [Express 0; Use 0 Compression]
    /\ filter about_binding (trace s') = []
    /\ httpServer s' = None
    /\ pending (boot env options disk) = ∅
    /\ settled (boot env options disk) = [(Initial, Thrown (TypeError message))].
Proof.
  intros Hssl Hmissing.
  unfold boot, start, startHttpServer, setupHttpServer, createHttpsServer. simpl.
  rewrite Hssl.
  destruct (existsSync env (sslKey options)) eqn:Ekey; simpl.
  - destruct Hmissing as [Hm|Hm]; [done|]. rewrite Hm. simpl.
    eexists _, _, (sslCert options), _, _.
    split; [reflexivity|]. split; [by eexists|]. split; [done|]. split; [done|].
    split; [reflexivity|]. done.
  - eexists _, _, (sslKey options), _, _.
    split; [reflexivity|]. split; [by eexists|]. split; [done|]. split; [done|].
    split; [reflexivity|]. done.
Qed.

Lemma start_fails_before_bind_when_tls_file_is_missing_witness :
  exists s' message missing before rest,
    start (demo_env false) (demo_options true) (created (demo_options true) None)
      = Threw s' (TypeError message)
    /\ ConfigurationError (TypeError message)
    /\ existsSync (demo_env false) missing = false
    /\ (if existsSync (demo_env false) (sslKey (demo_options true))
        then missing = sslCert (demo_options true)
        else missing = sslKey (demo_options true))
    /\ message = before +:+ dquote +:+ missing +:+ dquote +:+ rest
    /\ trace s' = [Express 0; Use 0 Compression]
    /\ filter about_binding (trace s') = []
    /\ httpServer s' = None
    /\ pending (boot (demo_env false) (demo_options true) None) = ∅
    /\ settled (boot (demo_env false) (demo_options true) None)
       = [(Initial, Thrown (TypeError message))].
Proof.
  apply (start_fails_before_bind_when_tls_file_is_missing
           (demo_env false) (demo_options true) None).
  - reflexivity.
  - left. reflexivity.
Defined.

(** ** The custom server module *)

Lemma not_a_function_rejects (env : environment) (s : task)
  (replies : list (option error)) :
  server_module s = Some NotAFunction ->
  ssl (startOptions s) = false ->
  3 <= length replies ->
  run_alone replies (startHttpServer env s)
  = Settled (build_begins env s)
      (Rejected (TypeError
         "ember-cli expected ./server/index.js to be the entry for your mock or proxy server")).
Proof.
  intros Hm Hssl Hlen.
  destruct (startHttpServer_cases env s) as [(e & E & _)|E].
  { unfold setupHttpServer in E. simpl in E. rewrite Hssl in E. discriminate. }
  rewrite E.
  destruct replies as [|e1 [|e2 [|e3 rest]]]; simpl in Hlen; try lia.
  simpl. unfold processAppMiddlewares. simpl. rewrite Hm. simpl.
  by destruct rest.
Qed.

(** [C6] When the project has a custom server module: if its export is
    not a function, [processAppMiddlewares] throws a TypeError (the spec's
    ConfigurationError) and the build is rejected with it; if it is a
    function of exactly 3 parameters, it is mounted on the application and
    not called; if it is a function of another arity, it is called with the
    application and the options, and what it mounts and how it completes is
    what the phase does. *)
Theorem custom_server_module_is_handler_or_factory
  (env : environment) (s : task) (a : application) :
  app s = Some a ->
  (server_module s = Some NotAFunction ->
     (exists e, processAppMiddlewares s = Threw s e /\ ConfigurationError e)
     /\ (ssl (startOptions s) = false ->
         forall replies, 3 <= length replies ->
         exists s' e, run_alone replies (startHttpServer env s) = Settled s' (Rejected e)
           /\ ConfigurationError e))
  /\ (forall body, server_module s = Some (Function 3 body) ->
        exists s', processAppMiddlewares s = Settled s' (Fulfilled tt)
          /\ trace s' = trace s ++ [Use (app_id a) ServerModule]
          /\ app s' = Some {| app_id := app_id a; stack := stack a ++ [ServerModule] |})
  /\ (forall n body, n <> 3 -> server_module s = Some (Function n body) ->
        forall s' r, finishes (caught (processAppMiddlewares s)) s' r ->
        exists tr, trace s' = trace s ++ InvokeServer (app_id a) (startOptions s) :: tr
          /\ call_trace TheServer (app_id a) body tr r
          /\ exists a', app s' = Some a' /\ stack a' = stack a ++ mounts body).
Proof.
  intros Ha. split; [|split].
  - intros Hm. split.
    + unfold processAppMiddlewares. rewrite Hm. eexists. split; [done|]. by eexists.
    + intros Hssl replies Hlen.
      rewrite (not_a_function_rejects env s replies Hm Hssl Hlen).
      eexists _, _. split; [done|]. by eexists.
  - intros body Hm. unfold processAppMiddlewares. rewrite Hm. simpl.
    eexists. split; [done|]. unfold use. rewrite Ha. done.
  - intros n body Hn Hm s' r H.
    unfold processAppMiddlewares in H. rewrite Hm in H.
    apply Nat.eqb_neq in Hn. rewrite Hn in H.
    rewrite (the_app_some s a Ha) in H.
    assert (Hstack : forall ms t b, app t = Some b ->
      exists b', app (fold_left (fun s m => use m s) ms t) = Some b'
        /\ stack b' = stack b ++ ms).
    { induction ms as [|m ms IH]; intros t b Hb; simpl.
      - exists b. by rewrite app_nil_r.
      - unfold use at 2. rewrite Hb.
        edestruct IH as (b' & Hb' & Hs); [|exists b'; split; [exact Hb'|]].
        + reflexivity.
        + rewrite Hs. simpl. by rewrite <- app_assoc. }
    destruct (Hstack (mounts body) (record (InvokeServer (app_id a) (startOptions s)) s) a Ha)
      as (b' & Hb' & Hs).
    unfold invoke in H.
    pose proof (mounted_only_fold_use (mounts body)
      (record (InvokeServer (app_id a) (startOptions s)) s) a Ha) as Hmo.
    destruct Hmo as [Htr _ _ _ _ _ _ _ _ _]. simpl in Htr.
    destruct (completes body) as [|e|] eqn:E; simpl in H.
    + apply finishes_settled_inv in H as [-> ->].
      eexists. split; [by rewrite Htr, <- app_assoc|]. split; [by constructor|]. by exists b'.
    + apply finishes_settled_inv in H as [-> ->].
      eexists. split; [by rewrite Htr, <- app_assoc|]. split; [by constructor|]. by exists b'.
    + inversion H as [|? ? ? err ? ? H1]; subst. clear H.
      destruct err as [e|]; apply finishes_settled_inv in H1 as [-> ->].
      * eexists. split; [|split; [by apply call_rejects|by exists b']].
        simpl. rewrite Htr. by rewrite <- !app_assoc.
      * eexists. split; [|split; [by apply call_resolves|by exists b']].
        simpl. rewrite Htr. by rewrite <- !app_assoc.
Qed.

Lemma custom_server_module_is_handler_or_factory_witness :
  let s := build_begins (demo_env true)
             (created (demo_options false) (Some demo_factory)) in
  let s' := state_of (caught (processAppMiddlewares s)) in
  exists tr,
    trace s' = trace s ++ InvokeServer 0 (startOptions s) :: tr
    /\ call_trace TheServer 0 {| mounts := [Mounted "mock"]; completes := Returns |} tr
         (Fulfilled tt)
    /\ exists a', app s' = Some a' /\ stack a' = [Compression; Mounted "mock"].
Proof.
  intros s s'.
  destruct (custom_server_module_is_handler_or_factory (demo_env true) s
              {| app_id := 0; stack := [Compression] |} eq_refl) as (_ & _ & H).
  apply (H 2); [lia | reflexivity | apply finishes_settled].
Defined.

(** ** The order of a build *)

(** An unfinished build can always be finished, and the events it has
    made so far are the first events of the finished build. *)
Lemma build_can_finish (env : environment) (s : task) (replies : list (option error)) :
  (forall s1 e, startHttpServer env s <> Threw s1 e) ->
  exists more s' r tr,
    run_alone (replies ++ more) (startHttpServer env s) = Settled s' r
    /\ trace s' = trace (state_of (run_alone replies (startHttpServer env s))) ++ tr.
Proof.
  intros Hnot.
  assert (Hob : obeys quiet ends_quiet (build_bound env) s (startHttpServer env s)).
  { pose proof (startHttpServer_obeys env s) as H.
    destruct (startHttpServer env s) eqn:E; [by edestruct Hnot | done | done]. }
  destruct (obeys_run _ _ _ _ _ replies Hob) as [s1 H1].
  destruct (obeys_run_alone _ _ _ _ _ (repeat None (build_bound env)) H1)
    as (s' & r & Hfin); [by rewrite repeat_length|].
  destruct (obeys_trace_grows quiet ends_quiet _ _ _
              (repeat None (build_bound env))
              (fun a b H => proj2 (proj2 H)) (fun a b r H => proj2 (proj2 H)) H1)
    as [tr Htr].
  exists (repeat None (build_bound env)), s', r, tr.
  rewrite run_alone_app. split; [done|]. rewrite Hfin in Htr. done.
Qed.

(** [C4] Every finished build has the events of [build_trace]: after the
    application and the server are created, first the phase of the custom
    server module, complete with the settlement of the promise it may
    return; only then, and only if that phase succeeded, the addons, in the
    order of [project.addons], each hook called with the application of this
    build and the options, and each call complete before the next hook is
    called; the first hook that throws or rejects ends the build, rejected
    with the hook's error, with no later hook called and no attempt to
    bind.  A build that has not finished yet can be finished, and its
    events so far are the first events of the finished build, so the same
    order holds at every moment of a build. *)
Theorem build_runs_module_then_addons_in_order (env : environment) (s : task) :
  (forall replies s' r,
     run_alone replies (startHttpServer env s) = Settled s' r ->
     exists tr,
       trace s' = trace s
                    ++ [Express (fresh s); Use (fresh s) Compression; creates env s] ++ tr
       /\ build_trace env (fresh s) (S (fresh s))
            (with_httpServer (Some (S (fresh s))) (startOptions s)) (server_module s) tr r)
  /\ (forall replies,
      (forall s1 e, startHttpServer env s <> Threw s1 e) ->
      exists more s' r tr,
        run_alone (replies ++ more) (startHttpServer env s) = Settled s' r
        /\ trace s' = trace (state_of (run_alone replies (startHttpServer env s))) ++ tr).
Proof.
  split.
  - intros replies s' r H. apply run_alone_finishes in H.
    apply startHttpServer_finishes in H as (tr & Hmo & Hb).
    exists tr. split; [|done].
    rewrite (mo_trace _ _ _ Hmo). simpl. by rewrite <- app_assoc.
  - intros replies. apply build_can_finish.
Qed.

Lemma build_runs_module_then_addons_in_order_witness :
  let s := created (demo_options false) (Some demo_factory) in
  let replies := repeat None 5 ++ [Some (ExternalError "proxy target unreachable")]
                 ++ repeat None 3 in
  exists tr,
    trace (state_of (run_alone replies (startHttpServer (demo_env true) s)))
    = trace s ++ [Express 0; Use 0 Compression; CreateServer 1 0] ++ tr
    /\ build_trace (demo_env true) 0 1
         (with_httpServer (Some 1) (demo_options false)) (Some demo_factory) tr
         (Rejected (ExternalError "proxy target unreachable")).
Proof.
  intros s replies.
  apply (proj1 (build_runs_module_then_addons_in_order (demo_env true) s) replies).
  vm_compute. reflexivity.
Defined.

(** The events of that build. *)
Example build_with_failing_hook :
  let s := created (demo_options false) (Some demo_factory) in
  let replies := repeat None 5 ++ [Some (ExternalError "proxy target unreachable")]
                 ++ repeat None 3 in
  let live := {| addon_name := "live-reload";
                 serverMiddleware :=
                   Some {| mounts := [Mounted "live-reload"]; completes := Returns |} |} in
  let proxy := {| addon_name := "proxy";
                  serverMiddleware :=
                    Some {| mounts := [Mounted "proxy"]; completes := ReturnsPromise |} |} in
  let o := with_httpServer (Some 1) (demo_options false) in
  trace (state_of (run_alone replies (startHttpServer (demo_env true) s)))
  = [Express 0; Use 0 Compression; CreateServer 1 0;
     InvokeServer 0 o; Use 0 (Mounted "mock");
     InitializeAddons;
     InvokeAddon live 0 o; Use 0 (Mounted "live-reload");
     InvokeAddon proxy 0 o; Use 0 (Mounted "proxy");
     Reply (Thenable (TheAddon proxy)) (Some (ExternalError "proxy target unreachable"))].
Proof. vm_compute. reflexivity. Qed.

(** ** Binding *)

Lemma call_trace_effects (who : collaborator) (a : nat) (f : callable)
  (tr : list effect) (r : result unit) :
  call_trace who a f tr r -> Forall (fun e => middleware_effect e = true) tr.
Proof.
  assert (H : forall ms, Forall (fun e => middleware_effect e = true) (map (Use a) ms)).
  { induction ms as [|m ms IH]; simpl; by constructor. }
  destruct 1; rewrite ?Forall_app; repeat split; auto; by repeat constructor.
Qed.

Lemma module_phase_effects (a : nat) (o : start_options) (m : option server_export)
  (tr : list effect) (r : result unit) :
  module_phase a o m tr r -> Forall (fun e => middleware_effect e = true) tr.
Proof.
  destruct 1; repeat constructor. by eapply call_trace_effects.
Qed.

Lemma addon_phase_effects (a : nat) (o : start_options) (l : list addon)
  (tr : list effect) (r : result unit) :
  addon_phase a o l tr r -> Forall (fun e => middleware_effect e = true) tr.
Proof.
  induction 1 as [|x rest tr r Hx _ IH|x hook rest tr1 tr r Hx Hc _ IH|x hook rest tr1 e Hx Hc];
    try done.
  - constructor; [done|]. apply Forall_app. split; [by eapply call_trace_effects | done].
  - constructor; [done|]. by eapply call_trace_effects.
Qed.

(** A finished build: the events of the middleware phases, then either
    nothing, the build being rejected, or the events of binding. *)
Lemma build_trace_split (env : environment) (a server : nat) (o : start_options)
  (m : option server_export) (tr : list effect) (r : result unit) :
  build_trace env a server o m tr r ->
  exists mw tl, tr = mw ++ tl
    /\ Forall (fun e => middleware_effect e = true) mw
    /\ ((tl = [] /\ exists e, r = Rejected e) \/ listen_phase server o tl r).
Proof.
  destruct 1 as [tr1 e H1|tr1 tr2 e H1 H2|tr1 tr2 tr3 r H1 H2 H3].
  - exists tr1, []. rewrite app_nil_r. split; [done|].
    split; [by eapply module_phase_effects|]. left. split; [done | by eexists].
  - exists (tr1 ++ InitializeAddons :: tr2), []. rewrite app_nil_r. split; [done|].
    split; [|left; split; [done | by eexists]].
    apply Forall_app. split; [by eapply module_phase_effects|].
    constructor; [done | by eapply addon_phase_effects].
  - exists (tr1 ++ InitializeAddons :: tr2), tr3. split; [by rewrite <- app_assoc|].
    split; [|by right].
    apply Forall_app. split; [by eapply module_phase_effects|].
    constructor; [done | by eapply addon_phase_effects].
Qed.

Lemma filter_none_of {A} (P Q : A -> bool) (l : list A) :
  Forall (fun e => P e = true) l ->
  (forall e, P e = true -> Q e = false) ->
  filter Q l = [].
Proof.
  intros H HPQ. induction H as [|x l Hx _ IH]; [done|].
  rewrite filter_cons_False; [done|]. rewrite (HPQ x Hx). by intros [].
Qed.

Lemma not_in_none_of {A} (P : A -> bool) (l : list A) (x : A) :
  Forall (fun e => P e = true) l -> P x = false -> ~ In x l.
Proof.
  intros H Hx Hin. rewrite Forall_forall in H.
  apply list_elem_of_In in Hin. apply H in Hin. congruence.
Qed.

(** [C9], as the code has it.  When the bind fails, the failure is
    replaced by the SilentError [bind_failure], a message naming host and
    port, and the promise of [start] is rejected with it; [listen] was
    called once and is not called again; the status line is not written.
    The task keeps the server it created: [httpServer] still holds it, so
    the task is not [stopped]. *)
Theorem bind_failure_is_silent_and_keeps_the_server
  (env : environment) (options : start_options) (disk : option server_export)
  (replies : list (option error)) (s' : task) (r : result unit)
  (server : nat) (e : error) :
  run_alone replies (start env options (created options disk)) = Settled s' r ->
  In (Reply (ServerListen server) (Some e)) (trace s') ->
  r = Rejected (bind_failure options)
  /\ filter about_binding (trace s')
     = [Listen server (port options) (host options);
        Reply (ServerListen server) (Some e)]
  /\ (forall line, ~ In (UiWriteLine line) (trace s'))
  /\ httpServer s' = Some server
  /\ ~ stopped s'.
Proof.
  intros H Hin. apply run_alone_finishes in H. unfold start in H.
  apply finishes_then in H as (s1 & r1 & H1 & H2).
  apply startHttpServer_finishes in H1 as (tr & Hmo & Hb).
  pose proof (mo_trace _ _ _ Hmo) as Htr.
  pose proof (mo_httpServer _ _ _ Hmo) as Hsrv. simpl in Hsrv.
  apply build_trace_split in Hb as (mw & tl & -> & Hmw & Htl).
  set (pre := trace (build_begins env (set_startOptions options (created options disk)))) in *.
  assert (Hpre : Forall (fun e => match e with
      | Express _ | Use _ _ | CreateServer _ _ | CreateHttpsServer _ _ _ _ => True
      | _ => False end) pre).
  { unfold pre, build_begins, creates. simpl. destruct (ssl options); by repeat constructor. }
  assert (Hfil : filter about_binding (trace s1) = filter about_binding tl).
  { rewrite Htr, !filter_app.
    rewrite (filter_none_of middleware_effect about_binding mw Hmw);
      [|by intros [| | | | | | | | | | | | | |[]]].
    assert (E : filter about_binding pre = []).
    { clear -Hpre. induction Hpre as [|x l Hx _ IH]; [done|].
      rewrite filter_cons_False; [done|].
      destruct x; (done || (let H := fresh in intros H; exact H)). }
    by rewrite E. }
  assert (Hlines : forall line, In (UiWriteLine line) (trace s1) -> In (UiWriteLine line) tl).
  { intros line. rewrite Htr. intros Hl.
    apply in_app_or in Hl as [Hl|Hl].
    - exfalso. rewrite Forall_forall in Hpre. apply list_elem_of_In in Hl. by apply Hpre in Hl.
    - apply in_app_or in Hl as [Hl|Hl]; [|done].
      exfalso. by apply (not_in_none_of middleware_effect mw (UiWriteLine line) Hmw). }
  assert (Hmem : forall x, In x (trace s1) -> about_binding x = true -> In x tl).
  { intros x Hx Hb'.
    assert (Hx' : In x (filter about_binding tl)).
    { rewrite <- Hfil. apply list_elem_of_In.
      apply list_elem_of_filter. split; [by rewrite Hb' | by apply list_elem_of_In]. }
    apply list_elem_of_In in Hx'. apply list_elem_of_filter in Hx' as [_ Hx'].
    by apply list_elem_of_In. }
  destruct Htl as [[-> [e0 ->]]|Hl].
  - destruct H2 as [-> ->]. by apply Hmem in Hin.
  - destruct Hl as [|e0].
    + simpl in H2. apply finishes_settled_inv in H2 as [-> ->].
      simpl in Hin. apply in_app_or in Hin as [Hin|[Hin|[]]]; [|done].
      apply Hmem in Hin; [|done]. destruct Hin as [Hin|[Hin|[Hin|[]]]]; done.
    + destruct H2 as [-> ->]. apply Hmem in Hin; [|done].
      destruct Hin as [Hin|[Hin|[]]]; [done|]. injection Hin as <- <-.
      split; [done|]. split; [by rewrite Hfil|]. split.
      * intros line Hl. apply Hlines in Hl. destruct Hl as [Hl|[Hl|[]]]; done.
      * split; [done|]. unfold stopped. by rewrite Hsrv.
Qed.

Lemma bind_failure_is_silent_and_keeps_the_server_witness :
  let replies := repeat None 8 ++ [Some (ExternalError "EADDRINUSE"); None; None] in
  let s' := state_of (run_alone replies
              (start (demo_env true) (demo_options false)
                 (created (demo_options false) None))) in
  Rejected (A := unit)
    (SilentError
       "Could not serve on http://localhost:4200. It is either in use or you do not have permission.")
  = Rejected (bind_failure (demo_options false))
  /\ filter about_binding (trace s')
     = [Listen 1 4200 None; Reply (ServerListen 1) (Some (ExternalError "EADDRINUSE"))]
  /\ (forall line, ~ In (UiWriteLine line) (trace s'))
  /\ httpServer s' = Some 1
  /\ ~ stopped s'.
Proof.
  intros replies s'.
  apply (bind_failure_is_silent_and_keeps_the_server (demo_env true) (demo_options false)
           None replies s' _ 1 (ExternalError "EADDRINUSE")).
  - vm_compute. reflexivity.
  - vm_compute. repeat (first [left; reflexivity | right]).
Defined.

(** [C9], as the claim states it, fails: after a bind failure the task is
    not [stopped], it still holds the server that could not bind. *)
Lemma bind_failure_leaves_stopped_counterexample :
  let replies := repeat None 8 ++ [Some (ExternalError "EADDRINUSE"); None; None] in
  exists s' e,
    run_alone replies
      (start (demo_env true) (demo_options false) (created (demo_options false) None))
    = Settled s' (Rejected (SilentError e))
    /\ In (Reply (ServerListen 1) (Some (ExternalError "EADDRINUSE"))) (trace s')
    /\ ~ stopped s'.
Proof.
  intros replies. eexists _, _. split; [vm_compute; reflexivity|].
  split; [vm_compute; repeat (first [left; reflexivity | right]) | vm_compute; discriminate].
Qed.

(** ** Compression *)

(** [C10] Whatever happens after [start], the application held by the
    task has the compression middleware as its first handler: it is
    mounted by every build right after the application is created, before
    the custom server module and the addons can mount anything. *)
Theorem compression_is_always_the_first_handler
  (env : environment) (options : start_options) (disk : option server_export)
  (events : list event) :
  compressed (this (run env events (boot env options disk))).
Proof.
  apply (inv_compressed []), invariant_reachable.
Qed.

(** ** Stopping *)

Lemma fold_record_fields {X} (f : X -> effect) (l : list X) (s : task) :
  let s1 := fold_left (fun s x => record (f x) s) l s in
  trace s1 = trace s ++ map f l
  /\ sockets s1 = sockets s /\ httpServer s1 = httpServer s.
Proof.
  revert s. induction l as [|x l IH]; intros s; simpl.
  - by rewrite app_nil_r.
  - destruct (IH (record (f x) s)) as (H1 & H2 & H3).
    rewrite H1, H2, H3. simpl. by rewrite <- app_assoc.
Qed.






(** ** A restart never rejects *)

Lemma obeys_finishes {A} (G : task -> task -> Prop)
  (Q : task -> task -> result A -> Prop) (n : nat) (s0 : task) (o : outcome A)
  (s : task) (r : result A) :
  obeys G Q n s0 o -> finishes o s r -> exists s1, Q s1 s r.
Proof.
  intros H Hf. revert n s0 H.
  induction Hf as [s r|s w k err s' r _ IH]; intros n s0 H.
  - apply obeys_settled_inv in H. by exists s0.
  - apply obeys_pending_inv in H as [_ H]. by eapply IH.
Qed.

Lemma restart_cycle_finishes (env : environment) (s s' : task) (r : result unit) :
  finishes (restart_cycle env s) s' r ->
  r = Fulfilled tt
  /\ exists s1 r1,
       finishes (restart_attempt env s) s1 r1
       /\ s' = set_serverRestartPromise None
                 match r1 with
                 | Fulfilled _ => s1
                 | Rejected e => record (UiWriteError e) s1
                 end.
Proof.
  intros H. unfold restart_cycle in H.
  apply finishes_finally in H as (s2 & H & ->).
  apply finishes_catch in H as (s1 & r1 & H1 & H2).
  destruct r1 as [[]|e].
  - destruct H2 as [-> ->]. split; [done|]. by exists s1, (Fulfilled tt).
  - simpl in H2. apply finishes_settled_inv in H2 as [-> ->].
    split; [done|]. by exists s1, (Rejected e).
Qed.

(** [C2] The promise of a restart is never rejected.  In every world
    reachable from [start], every restart that has ended is resolved;
    whatever events the cycle is fed, and whether stopping, rebuilding or
    starting fails, the promise built by [restartHttpServer] settles,
    fulfilled, once it has received at most [cycle_bound] events, and
    [serverRestartPromise] is null again; when the part before [.catch]
    is rejected with an error, that error is written with [ui.writeError]
    and nothing else is added. *)
Theorem restart_always_resolves_and_reports (env : environment) :
  (forall options disk events rq f,
     In (Request rq, f) (settled (run env events (boot env options disk))) ->
     f = Resolved)
  /\ (forall s replies, cycle_bound env <= length replies ->
        exists s', run_alone replies (restart_cycle env s) = Settled s' (Fulfilled tt))
  /\ (forall s replies s' r,
        run_alone replies (restart_cycle env s) = Settled s' r ->
        r = Fulfilled tt
        /\ serverRestartPromise s' = None
        /\ exists s1 r1,
             finishes (restart_attempt env s) s1 r1
             /\ trace s' = trace s1 ++
                  match r1 with
                  | Fulfilled _ => []
                  | Rejected e => [UiWriteError e]
                  end).
Proof.
  split; [|split].
  - intros options disk events rq f Hin.
    eapply (inv_resolved [] _ (invariant_reachable env options disk events)).
    by apply list_elem_of_In.
  - intros s replies Hlen.
    destruct (obeys_run_alone _ _ _ _ _ replies (restart_cycle_obeys env s) Hlen)
      as (s' & r & H).
    exists s'. rewrite H. f_equal.
    apply run_alone_finishes in H. by apply restart_cycle_finishes in H as [-> _].
  - intros s replies s' r H. apply run_alone_finishes in H.
    apply restart_cycle_finishes in H as (-> & s1 & r1 & H1 & ->).
    split; [done|]. split; [done|]. exists s1, r1. split; [done|].
    destruct r1; simpl; [by rewrite app_nil_r | done].
Qed.

(** A restart whose stop fails: the close callback reports an error. *)
Lemma restart_always_resolves_and_reports_witness :
  let s := this (run (demo_env true) demo_started
                   (boot (demo_env true) (demo_options false) None)) in
  let replies := Some (ExternalError "close failed") :: repeat None 4 in
  Fulfilled tt = Fulfilled tt
  /\ serverRestartPromise
       (state_of (run_alone replies (restart_cycle (demo_env true) s))) = None
  /\ exists s1 r1,
       finishes (restart_attempt (demo_env true) s) s1 r1
       /\ trace (state_of (run_alone replies (restart_cycle (demo_env true) s)))
          = trace s1 ++
              match r1 with
              | Fulfilled _ => []
              | Rejected e => [UiWriteError e]
              end.
Proof.
  intros s replies.
  destruct (restart_always_resolves_and_reports (demo_env true)) as (_ & _ & H).
  apply (H s replies). vm_compute. reflexivity.
Defined.

(** The three kinds of failure of a cycle, on concrete runs: each ends
    resolved, with the error written. *)
Example restart_with_stop_failure :
  let s := this (run (demo_env true) demo_started
                   (boot (demo_env true) (demo_options false) None)) in
  exists s', run_alone (Some (ExternalError "close failed") :: repeat None 4)
               (restart_cycle (demo_env true) s) = Settled s' (Fulfilled tt)
    /\ last (trace s') = Some (UiWriteError (ExternalError "close failed"))
    /\ serverRestartPromise s' = None.
Proof. intros s. eexists. split; [vm_compute; reflexivity | done]. Qed.

Example restart_with_rebuild_failure :
  let s := set_server_module (Some NotAFunction)
             (this (run (demo_env true) demo_started
                      (boot (demo_env true) (demo_options false) None))) in
  exists s', run_alone (repeat None 8) (restart_cycle (demo_env true) s)
             = Settled s' (Fulfilled tt)
    /\ last (trace s')
       = Some (UiWriteError (TypeError
           "ember-cli expected ./server/index.js to be the entry for your mock or proxy server"))
    /\ serverRestartPromise s' = None.
Proof. intros s. eexists. split; [vm_compute; reflexivity | done]. Qed.

Example restart_with_start_failure :
  let s := this (run (demo_env true) demo_started
                   (boot (demo_env true) (demo_options false) None)) in
  exists s', run_alone (repeat None 10 ++ [Some (ExternalError "EADDRINUSE")]
                          ++ repeat None 5)
               (restart_cycle (demo_env true) s) = Settled s' (Fulfilled tt)
    /\ last (trace s') = Some (UiWriteError (bind_failure (demo_options false)))
    /\ serverRestartPromise s' = None.
Proof. intros s. eexists. split; [vm_compute; reflexivity | done]. Qed.

(** ** Restarts are serialized *)










(** ** The order of a cycle *)










Example three_requests_queue :
  let w := run (demo_env true) (demo_started ++ [CallRestart; CallRestart; CallRestart])
             (boot (demo_env true) (demo_options false) None) in
  running_requests w = [0] /\ queued_requests w = [1; 2] /\ settled_requests w = [].
Proof. vm_compute. done. Qed.

Example three_requests_all_run :
  let w := run (demo_env true)
             (demo_started ++ [CallRestart; CallRestart; CallRestart]
              ++ repeat (Deliver 1 None) 15 ++ repeat (Deliver 2 None) 15
              ++ repeat (Deliver 3 None) 15)
             (boot (demo_env true) (demo_options false) None) in
  running_requests w = [] /\ queued_requests w = []
  /\ settled w = [(Initial, Resolved); (Request 0, Resolved);
                  (Request 1, Resolved); (Request 2, Resolved)]
  /\ phases (trace (this w))
     = [StartCalled;
        StopCalled; StopDone; CachePurged; StartCalled;
        StopCalled; StopDone; CachePurged; StartCalled;
        StopCalled; StopDone; CachePurged; StartCalled].
Proof. vm_compute. done. Qed.

(** ** Debounce *)

(** The world after the notifications of a burst: only the clock and the
    timer have changed, and the timer was restarted by the last one. *)
Lemma burst_only_rearms (env : environment) (later : list (Z * notification)) (w : world) :
  Forall (fun gn => (0 <= fst gn < delay env)%Z) later ->
  lastCall w = Some (now w) ->
  let w1 := run env (flat_map (fun gn => [Elapse (fst gn); Notify (snd gn)]) later) w in
  this w1 = this w /\ pending w1 = pending w /\ reactions w1 = reactions w
  /\ settled w1 = settled w /\ promises w1 = promises w /\ requests w1 = requests w
  /\ lastCall w1 = Some (now w1).
Proof.
  intros H. revert w. induction H as [|[g n] later [Hg1 Hg2] _ IH]; intros w Hlast.
  - done.
  - simpl in Hg1, Hg2. cbv zeta in *.
    change (run env (flat_map (fun gn => [Elapse gn.1; Notify gn.2]) ((g, n) :: later)) w)
      with (run env (flat_map (fun gn => [Elapse gn.1; Notify gn.2]) later)
              (step env (Notify n) (step env (Elapse g) w))).
    assert (Hstep : step env (Notify n) (step env (Elapse g) w)
                    = set_lastCall (Some (now w + g)%Z) (set_now (now w + g)%Z w)).
    { simpl. unfold elapse. rewrite decide_False by lia. simpl. rewrite Hlast.
      rewrite decide_False by lia. done. }
    rewrite Hstep.
    destruct (IH (set_lastCall (Some (now w + g)%Z) (set_now (now w + g)%Z w)) eq_refl)
      as (H1 & H2 & H3 & H4 & H5 & H6 & H7).
    rewrite H1, H2, H3, H4, H5, H6, H7. done.
Qed.

(** [C3] Notifications (change, add or delete alike) that each arrive
    less than the delay after the one before call [restartHttpServer]
    exactly once, and only once the delay has elapsed after the last of
    them.  During the burst nothing of the task changes and no promise is
    created.  When the quiet time has elapsed, the one call is made: with
    no restart executing, exactly one cycle begins, for that request; with
    a restart executing, the request is queued behind it.  Time passing
    afterwards triggers nothing more.  The delay is 100 unless
    [serverRestartDelayTime] says otherwise. *)
Theorem notifications_within_the_delay_restart_once
  (env : environment) (w : world) (first : notification)
  (later : list (Z * notification)) (quiet_time : Z) :
  Forall (fun gn => (0 <= fst gn < delay env)%Z) later ->
  (0 <= quiet_time)%Z ->
  (delay env <= quiet_time)%Z ->
  let w1 := run env (burst first later) w in
  let w2 := step env (Elapse quiet_time) w1 in
  (serverRestartDelayTime env = None -> delay env = 100%Z)
  /\ (this w1 = this w /\ pending w1 = pending w /\ reactions w1 = reactions w
      /\ settled w1 = settled w /\ promises w1 = promises w
      /\ requests w1 = requests w)
  /\ requests w2 = S (requests w)
  /\ (serverRestartPromise (this w) = None ->
      promises w2 = S (promises w)
      /\ serverRestartPromise (this w2) = Some (promises w)
      /\ reactions w2 = reactions w
      /\ exists c, pending w2 = <[promises w := c]> (pending w)
           /\ chain_owner c = Request (requests w))
  /\ (forall p, serverRestartPromise (this w) = Some p ->
      this w2 = this w /\ pending w2 = pending w /\ promises w2 = promises w
      /\ reactions w2 = reactions w ++ [(p, requests w)])
  /\ (forall more, (0 <= more)%Z ->
      step env (Elapse more) w2 = set_now (now w2 + more)%Z w2).
Proof.
  intros Hlater Hq0 Hq w1 w2.
  split; [unfold delay; by intros ->|].
  destruct (burst_only_rearms env later (step env (Notify first) w) Hlater eq_refl)
    as (H1 & H2 & H3 & H4 & H5 & H6 & H7).
  fold (run env (burst first later) w) in *.
  assert (Hw1 : run env (flat_map (fun gn => [Elapse gn.1; Notify gn.2]) later)
            (step env (Notify first) w) = w1) by done.
  rewrite Hw1 in *. simpl in H1, H2, H3, H4, H5, H6.
  split; [done|].
  assert (Hw2 : w2 = request_restart env
            (set_lastCall None (set_now (now w1 + quiet_time)%Z w1))).
  { unfold w2. simpl. unfold elapse. rewrite decide_False by lia. simpl. rewrite H7.
    rewrite decide_True by lia. done. }
  assert (Hlast : lastCall w2 = None).
  { rewrite Hw2. unfold request_restart, restartHttpServer. simpl.
    destruct (serverRestartPromise (this w1)); [done|].
    destruct (restart_cycle_pending env (this w1)) as (s1 & wt & k & ->). done. }
  split; [|split; [|split]].
  - rewrite Hw2. unfold request_restart, restartHttpServer. simpl. rewrite H6.
    destruct (serverRestartPromise (this w1)); [done|].
    destruct (restart_cycle_pending env (this w1)) as (s1 & wt & k & ->). done.
  - intros Hnone. rewrite Hw2. unfold request_restart, restartHttpServer. simpl.
    rewrite H1, Hnone.
    pose proof (restart_cycle_obeys env (this w)) as Hob.
    destruct (restart_cycle_pending env (this w)) as (s1 & wt & k & Hk).
    rewrite Hk in *. apply obeys_pending_inv in Hob as [[Hslot _] _].
    simpl. rewrite H2, H3, H5, H6. split; [done|]. split; [done|]. split; [done|].
    by eexists.
  - intros p Hp. rewrite Hw2. unfold request_restart, restartHttpServer. simpl.
    rewrite H1, Hp. simpl. by rewrite H2, H3, H5, H6.
  - intros more Hmore. simpl. unfold elapse. rewrite decide_False by lia.
    simpl. by rewrite Hlast.
Qed.

Lemma notifications_within_the_delay_restart_once_witness :
  let w := run (demo_env true) demo_started
             (boot (demo_env true) (demo_options false) None) in
  let w1 := run (demo_env true) (burst Changed [(30%Z, Added); (99%Z, Deleted)]) w in
  let w2 := step (demo_env true) (Elapse 100) w1 in
  requests w1 = requests w /\ requests w2 = S (requests w)
  /\ promises w2 = S (promises w).
Proof.
  intros w w1 w2.
  destruct (notifications_within_the_delay_restart_once (demo_env true) w Changed
              [(30%Z, Added); (99%Z, Deleted)] 100%Z)
    as (_ & (_ & _ & _ & _ & _ & H1) & H2 & H3 & _).
  - repeat constructor; vm_compute; congruence.
  - lia.
  - vm_compute. congruence.
  - split; [exact H1|]. split; [exact H2|]. apply H3. reflexivity.
Defined.

(** ** The registry of sockets *)

Lemma run_snoc (env : environment) (events : list event) (ev : event) (w : world) :
  run env (events ++ [ev]) w = step env ev (run env events w).
Proof. unfold run. by rewrite fold_left_app. Qed.





Lemma setupHttpServer_registry (env : environment) (s s1 : task) :
  setupHttpServer env s = inr s1 -> sockets s1 = ∅ /\ nextSocketId s1 = 0.
Proof.
  unfold setupHttpServer.
  destruct (if ssl (startOptions s) then createHttpsServer env s else inr (createServer s))
    as [e|[s0 server]]; [discriminate|].
  by intros [= <-].
Qed.



(** *** Ids start again with every server *)

Lemma connect_fields (new : list nat) (s : task) :
  nextSocketId (connect new s) = nextSocketId s + length new
  /\ httpServer (connect new s) = httpServer s
  /\ trace (connect new s) = trace s
  /\ forall id,
       sockets (connect new s) !! id
       = if decide (nextSocketId s <= id < nextSocketId s + length new)
         then new !! (id - nextSocketId s)
         else sockets s !! id.
Proof.
  revert s. induction new as [|c new IH]; intros s.
  - simpl. split; [lia|]. split; [done|]. split; [done|].
    intros id. rewrite decide_False by lia. done.
  - change (connect (c :: new) s) with (connect new (on_connection c s)).
    destruct (IH (on_connection c s)) as (H1 & H2 & H3 & H4).
    rewrite H1, H2, H3. cbn [on_connection nextSocketId set_sockets set_nextSocketId
                             httpServer trace length].
    split; [lia|]. split; [done|]. split; [done|].
    intros id. rewrite H4.
    cbn [on_connection nextSocketId set_sockets set_nextSocketId sockets length].
    destruct (decide (id = nextSocketId s)) as [->|Hne].
    + rewrite decide_False by lia. rewrite lookup_insert_eq.
      rewrite decide_True by lia. by rewrite Nat.sub_diag.
    + rewrite lookup_insert_ne by done.
      destruct (decide (S (nextSocketId s) <= id < S (nextSocketId s) + length new)).
      * rewrite decide_True by lia.
        replace (id - nextSocketId s) with (S (id - S (nextSocketId s))) by lia. done.
      * rewrite decide_False by lia. done.
Qed.

Lemma setupHttpServer_server (env : environment) (s s1 : task) :
  setupHttpServer env s = inr s1 -> exists server, httpServer s1 = Some server.
Proof.
  unfold setupHttpServer.
  destruct (if ssl (startOptions s) then createHttpsServer env s else inr (createServer s))
    as [e|[s0 server]]; [discriminate|].
  intros [= <-]. by exists server.
Qed.

(** [X2] Socket ids start again from 0 with every server, and the 'close'
    listener of a socket deletes whatever [this.sockets] holds under its
    id at the time it runs.  So the k-th connection of a server and the
    k-th connection of a server set up after it are stored under the same
    id, and the listener of the former, run once the latter is registered,
    removes the latter: [stopHttpServer] then destroys every other socket
    of the registry, but not that one. *)
Theorem late_close_untracks_the_socket_of_the_next_server
  (env : environment) (s s1 t t1 : task) (old new : list nat) (k a b : nat) :
  setupHttpServer env s = inr s1 ->
  old !! k = Some a ->
  setupHttpServer env t = inr t1 ->
  new !! k = Some b ->
  NoDup new ->
  let t2 := on_socket_close k (connect new t1) in
  sockets (connect old s1) !! k = Some a
  /\ sockets (connect new t1) !! k = Some b
  /\ (forall id, sockets t2 !! id <> Some b)
  /\ exists server t3 k0,
       stopHttpServer t2 = Pending t3 (ServerClose server) k0
       /\ exists destroyed,
            trace t3 = trace t2 ++ Close server :: map Destroy destroyed
            /\ ~ In b destroyed
            /\ forall c, In c new -> c <> b -> In c destroyed.
Proof.
  intros Hs Ha Ht Hb Hnd t2.
  destruct (setupHttpServer_registry env s s1 Hs) as [Hes Hns].
  destruct (setupHttpServer_registry env t t1 Ht) as [Het Hnt].
  destruct (setupHttpServer_server env t t1 Ht) as [server Hsrv].
  destruct (connect_fields old s1) as (_ & _ & _ & Hold).
  destruct (connect_fields new t1) as (_ & Hh & _ & Hnew).
  assert (Hlook : forall id, sockets (connect new t1) !! id = new !! id).
  { intros id. rewrite Hnew, Hnt, Het, lookup_empty, Nat.sub_0_r.
    case_decide as Hd; [done|]. symmetry. apply lookup_ge_None. lia. }
  assert (Hlook2 : forall id, sockets t2 !! id = if decide (id = k) then None else new !! id).
  { intros id. unfold t2. cbn [on_socket_close sockets set_sockets].
    case_decide as Hd; [subst; by rewrite lookup_delete_eq|].
    rewrite lookup_delete_ne by done. apply Hlook. }
  assert (Hnot : forall id, sockets t2 !! id <> Some b).
  { intros id. rewrite Hlook2. case_decide as Hd; [done|].
    intros Hid. apply Hd. by eapply NoDup_lookup. }
  split.
  { rewrite Hold, Hns, Hes, Nat.sub_0_r.
    rewrite decide_True; [done|]. apply lookup_lt_Some in Ha. lia. }
  split; [by rewrite Hlook|]. split; [exact Hnot|].
  assert (Hsrv2 : httpServer t2 = Some server).
  { unfold t2. cbn [on_socket_close httpServer set_sockets]. by rewrite Hh. }
  unfold stopHttpServer, await. rewrite Hsrv2.
  eexists server, _, _. split; [reflexivity|].
  exists (map_to_list (sockets t2)).*2.
  destruct (fold_record_fields Destroy (map_to_list (sockets t2)).*2
              (record (Close server) t2)) as (Htr & _ & _).
  split; [rewrite Htr; simpl; by rewrite <- app_assoc|].
  split.
  - intros Hin. apply list_elem_of_In, list_elem_of_fmap in Hin as ([id x] & -> & Hin).
    apply elem_of_map_to_list in Hin. by apply (Hnot id).
  - intros c Hc Hcb. apply list_elem_of_In, list_elem_of_lookup in Hc as [i Hi].
    apply list_elem_of_In, list_elem_of_fmap. exists (i, c). split; [done|].
    apply elem_of_map_to_list. rewrite Hlook2.
    case_decide as Hd; [|done]. subst. congruence.
Qed.

Lemma late_close_untracks_the_socket_of_the_next_server_witness :
  let env := demo_env true in
  let s := created (demo_options false) None in
  let s1 := match setupHttpServer env s with inr s1 => s1 | inl _ => s end in
  sockets (connect [70; 71] s1) !! 1 = Some 71
  /\ sockets (connect [80; 81] s1) !! 1 = Some 81
  /\ sockets (on_socket_close 1 (connect [80; 81] s1)) !! 1 <> Some 81.
Proof.
  intros env s s1.
  assert (Hnd : NoDup [80; 81]).
  { apply NoDup_cons. split; [|apply NoDup_singleton].
    intros Hin. apply list_elem_of_singleton in Hin. discriminate. }
  destruct (late_close_untracks_the_socket_of_the_next_server env s s1 s s1
              [70; 71] [80; 81] 1 71 81 eq_refl eq_refl eq_refl eq_refl Hnd)
    as (H1 & H2 & H3 & _).
  split; [exact H1|]. split; [exact H2|]. apply H3.
Defined.

(** The same in the loop: a connection is open when a restart is
    requested; the restart runs to its end; the new server accepts a
    connection; then the close notification of the first socket arrives.
    The registry is empty, although the second connection is open. *)
Example late_close_in_the_loop :
  let w := run (demo_env true)
             (demo_started ++ [Connection 70; CallRestart]
              ++ repeat (Deliver 1 None) 15 ++ [Connection 80])
             (boot (demo_env true) (demo_options false) None) in
  settled w = [(Initial, Resolved); (Request 0, Resolved)]
  /\ sockets (this w) !! 0 = Some 80
  /\ sockets (this (step (demo_env true) (SocketClose 0) w)) = ∅.
Proof. vm_compute. repeat split. Qed.

(** ** Reports *)

Lemma serving_line_httpServer (env : environment) (v : option nat) (o : start_options) :
  serving_line env (with_httpServer v o) = serving_line env o.
Proof. reflexivity. Qed.

Lemma middleware_not_reported (e : effect) : middleware_effect e = true -> report e = false.
Proof. destruct e; simpl; congruence. Qed.

Lemma creates_not_reported (env : environment) (s : task) :
  filter report [Express (fresh s); Use (fresh s) Compression; creates env s] = [].
Proof. unfold creates. by destruct (ssl (startOptions s)). Qed.

(** A finished build reports nothing but 'listening', which it emits last,
    right after the server said that it listens. *)
Lemma startHttpServer_reports (env : environment) (s s' : task) (r : result unit) :
  finishes (caught (startHttpServer env s)) s' r ->
  exists tr, trace s' = trace s ++ tr
    /\ match r with
       | Fulfilled _ =>
           exists tr0,
             tr = tr0 ++ [Reply (ServerListen (S (fresh s))) None; Emit "listening"]
             /\ filter report tr0 = []
             /\ httpServer s' = Some (S (fresh s))
       | Rejected _ => filter report tr = []
       end.
Proof.
  intros H. apply finishes_caught in H as [H|(e & H & ->)].
  - apply startHttpServer_finishes in H as (tr & Hmo & Hb).
    apply build_trace_split in Hb as (mw & tl & -> & Hmw & Htl).
    pose proof (filter_none_of middleware_effect report mw Hmw middleware_not_reported)
      as Hfm.
    exists ([Express (fresh s); Use (fresh s) Compression; creates env s] ++ mw ++ tl).
    split.
    { rewrite (mo_trace _ _ _ Hmo). simpl. by rewrite <- !app_assoc. }
    destruct Htl as [(-> & e & ->)|Hl].
    + rewrite !filter_app, creates_not_reported, Hfm. done.
    + destruct Hl as [|e].
      * exists ([Express (fresh s); Use (fresh s) Compression; creates env s] ++ mw
                ++ [Listen (S (fresh s))
                      (port (with_httpServer (Some (S (fresh s))) (startOptions s)))
                      (host (with_httpServer (Some (S (fresh s))) (startOptions s)))]).
        split; [by rewrite <- !app_assoc|].
        split; [|by rewrite (mo_httpServer _ _ _ Hmo)].
        rewrite !filter_app, creates_not_reported, Hfm. done.
      * rewrite !filter_app, creates_not_reported, Hfm. done.
  - destruct (startHttpServer_cases env s) as [(e' & _ & E)|E]; rewrite E in H.
    + injection H as <- _. exists [Express (fresh s); Use (fresh s) Compression].
      split; [simpl; by rewrite <- app_assoc | done].
    + discriminate.
Qed.

Lemma finishes_not_threw {A} (o : outcome A) (s : task) (r : result A) :
  finishes o s r -> finishes (caught o) s r.
Proof. intros H. destruct H; simpl; by econstructor. Qed.

(** [X3] [start]: the promise of [start] settles as the build does, rejected
    with the very error of the build when the build fails.  The status
    line, with the scheme, host, port and base URL of the options, is
    written exactly when the build succeeded: once, as the last thing
    [start] does, right after the server said that it listens and
    'listening' was emitted.  Before that, and when the build fails,
    [start] reports nothing. *)
Theorem start_announces_the_address_once_listening
  (env : environment) (options : start_options) (s : task)
  (replies : list (option error)) (s' : task) (r : result unit) :
  run_alone replies (start env options s) = Settled s' r ->
  exists tr,
    trace s' = trace s ++ tr
    /\ match r with
       | Fulfilled _ =>
           exists tr0 server,
             tr = tr0 ++ [Reply (ServerListen server) None; Emit "listening";
                          UiWriteLine (serving_line env options)]
             /\ filter report tr0 = []
             /\ httpServer s' = Some server
       | Rejected e =>
           filter report tr = []
           /\ finishes (startHttpServer env (set_startOptions options s)) s' (Rejected e)
       end.
Proof.
  intros H. apply run_alone_finishes in H. unfold start in H.
  apply finishes_then in H as (s1 & r1 & H1 & H2).
  pose proof (startHttpServer_finishes env _ _ _ H1) as (trb & Hmo & _).
  destruct (startHttpServer_reports env _ _ _ (finishes_not_threw _ _ _ H1))
    as (tr & Htr & Hr).
  destruct r1 as [[]|e].
  - simpl in H2. apply finishes_settled_inv in H2 as [-> ->].
    destruct Hr as (tr0 & -> & Hf & Hsrv).
    eexists. split.
    { simpl. rewrite Htr. simpl. rewrite <- app_assoc. reflexivity. }
    exists tr0, (S (fresh s)). split; [|split; [done|exact Hsrv]].
    rewrite <- app_assoc. simpl. rewrite (mo_startOptions _ _ _ Hmo). done.
  - destruct H2 as [-> ->]. exists tr. split; [exact Htr|]. split; done.
Qed.

Lemma start_announces_the_address_once_listening_witness :
  let s := created (demo_options false) None in
  exists s' tr0 server,
    run_alone (repeat None 12) (start (demo_env true) (demo_options false) s)
    = Settled s' (Fulfilled tt)
    /\ trace s' = trace s ++ tr0 ++ [Reply (ServerListen server) None; Emit "listening";
                                    UiWriteLine "Serving on http://localhost:4200/"]
    /\ filter report tr0 = [].
Proof.
  intros s.
  destruct (run_alone (repeat None 12) (start (demo_env true) (demo_options false) s))
    as [s' e|s' [[]|e]|s' w k] eqn:E; try (vm_compute in E; discriminate).
  destruct (start_announces_the_address_once_listening _ _ _ _ _ _ E)
    as (tr & Htr & tr0 & server & -> & Hf & _).
  exists s', tr0, server. split; [reflexivity|]. split; [exact Htr | exact Hf].
Defined.

Lemma destroy_not_reported (l : list nat) : filter report (map Destroy l) = [].
Proof.
  induction l as [|x l IH]; [done|]. simpl.
  rewrite filter_cons_False; [done|]. intros H; exact H.
Qed.

Lemma stopHttpServer_reports (s s' : task) (r : result unit) :
  finishes (stopHttpServer s) s' r ->
  exists tr, trace s' = trace s ++ tr /\ filter report tr = [].
Proof.
  unfold stopHttpServer, await.
  destruct (httpServer s) as [server|] eqn:E.
  - intros H. inversion H as [|? ? ? err ? ? H1]; subst. clear H.
    destruct (fold_record_fields Destroy (map_to_list (sockets s)).*2
                (record (Close server) s)) as (Htr & _ & _).
    simpl in Htr.
    exists (Close server :: map Destroy (map_to_list (sockets s)).*2
            ++ [Reply (ServerClose server) err]).
    split.
    + destruct err as [e|]; apply finishes_settled_inv in H1 as [-> ->];
        simpl; rewrite Htr; by rewrite <- !app_assoc.
    + rewrite filter_cons_False by (intros H0; exact H0).
      rewrite filter_app, destroy_not_reported. done.
  - intros H. apply finishes_settled_inv in H as [-> ->].
    exists []. by rewrite app_nil_r.
Qed.

(** [X4] [restartHttpServer]: what a restart reports.  When the cycle succeeds,
    'restart' is emitted and the three lines of "Server restarted." are
    written, once, as the last things the cycle does, right after the new
    server said that it listens; nothing else is reported before.  When
    stopping, rebuilding or binding fails, the cycle reports the error
    with [ui.writeError], once, and nothing else: no 'restart', no
    'listening', no line. *)
Theorem restart_reports_success_only_once_listening
  (env : environment) (s : task) (replies : list (option error))
  (s' : task) (r : result unit) :
  run_alone replies (restart_cycle env s) = Settled s' r ->
  exists tr,
    trace s' = trace s ++ tr
    /\ ((exists tr0 server,
           tr = tr0 ++ [Reply (ServerListen server) None; Emit "listening";
                        Emit "restart"; UiWriteLine EmptyString;
                        UiWriteLine "Server restarted."; UiWriteLine EmptyString]
           /\ filter report tr0 = []
           /\ httpServer s' = Some server)
        \/ (exists tr0 e,
              tr = tr0 ++ [UiWriteError e]
              /\ filter report tr0 = [])).
Proof.
  intros H. apply run_alone_finishes, restart_cycle_finishes in H as (_ & s1 & r1 & H & ->).
  unfold restart_attempt in H.
  apply finishes_then in H as (sb & rb & H & Hfin).
  apply finishes_then in H as (sa & ra & Hstop & Hstart).
  apply stopHttpServer_reports in Hstop as (tra & Htra & Hfa).
  destruct ra as [[]|e].
  - apply startHttpServer_reports in Hstart as (trb & Htrb & Hrb).
    simpl in Htrb, Hrb.
    destruct rb as [[]|e].
    + simpl in Hfin. apply finishes_settled_inv in Hfin as [-> ->].
      destruct Hrb as (tr0 & -> & Hf0 & Hsrv).
      eexists. split.
      { simpl. rewrite Htrb, Htra. rewrite <- !app_assoc. reflexivity. }
      left. exists (tra ++ [PurgeCache (absoluteServerRoot env (serverRoot env))] ++ tr0),
        (S (fresh sa)).
      split; [by rewrite <- !app_assoc|]. split; [|exact Hsrv].
      rewrite !filter_app, Hfa, Hf0. done.
    + destruct Hfin as [-> ->].
      eexists. split.
      { simpl. rewrite Htrb, Htra. rewrite <- !app_assoc. reflexivity. }
      right. exists (tra ++ [PurgeCache (absoluteServerRoot env (serverRoot env))] ++ trb), e.
      split; [by rewrite <- !app_assoc|].
      rewrite !filter_app, Hfa, Hrb. done.
  - destruct Hstart as [-> ->]. destruct Hfin as [-> ->].
    eexists. split.
    { simpl. rewrite Htra. rewrite <- !app_assoc. reflexivity. }
    right. by exists tra, e.
Qed.

Lemma restart_reports_success_only_once_listening_witness :
  let s := this (run (demo_env true) demo_started
                   (boot (demo_env true) (demo_options false) None)) in
  let o := run_alone (repeat None 15) (restart_cycle (demo_env true) s) in
  o = Settled (state_of o) (Fulfilled tt)
  /\ exists tr0,
       trace (state_of o)
       = trace s ++ tr0 ++ [Reply (ServerListen 3) None; Emit "listening";
                            Emit "restart"; UiWriteLine EmptyString;
                            UiWriteLine "Server restarted."; UiWriteLine EmptyString]
       /\ filter report tr0 = [].
Proof.
  intros s o.
  assert (E : o = Settled (state_of o) (Fulfilled tt)) by (vm_compute; reflexivity).
  split; [exact E|].
  destruct (restart_reports_success_only_once_listening _ _ _ _ _ E)
    as (tr & Htr & [(tr0 & server & -> & Hf & Hsrv)|(tr0 & e & -> & _)]).
  - exists tr0. split; [|exact Hf].
    assert (Hs : httpServer (state_of o) = Some 3) by (vm_compute; reflexivity).
    rewrite Hs in Hsrv. injection Hsrv as <-. exact Htr.
  - exfalso. apply (f_equal last) in Htr. rewrite app_assoc, last_snoc in Htr.
    vm_compute in Htr. discriminate.
Defined.

(** ** The handlers of a build *)












(** ** The module cache, again *)

(** [X6] [invalidateCache] only removes entries; purging twice is purging
    once; purges of two roots can be made in either order; and a module
    loaded under the root is gone after the next purge, as if it had never
    been loaded. *)
Theorem invalidateCache_only_removes_and_composes
  (env : environment) (root root' : string) (s : task) :
  require_cache (invalidateCache env root s) ⊆ require_cache s
  /\ require_cache (invalidateCache env root (invalidateCache env root s))
     = require_cache (invalidateCache env root s)
  /\ require_cache (invalidateCache env root (invalidateCache env root' s))
     = require_cache (invalidateCache env root' (invalidateCache env root s))
  /\ (forall key m,
        begins_with (absoluteServerRoot env root) key ->
        require_cache
          (invalidateCache env root (set_require_cache (<[key := m]> (require_cache s)) s))
        = require_cache (invalidateCache env root s)).
Proof.
  cbn [invalidateCache require_cache record set_require_cache].
  split; [|split; [|split]].
  - apply map_subseteq_spec. intros k v. rewrite purge_lookup. by case_decide.
  - apply map_eq. intros k. rewrite !purge_lookup. by case_decide.
  - apply map_eq. intros k. rewrite !purge_lookup. by repeat case_decide.
  - intros key m Hkey. apply map_eq. intros k. rewrite !purge_lookup.
    case_decide as Hd; [done|].
    rewrite lookup_insert_ne; [done|]. intros ->. by apply Hd, indexOf_zero.
Qed.

(** ** Which server is created *)


(** ** The delay of the restart *)

Lemma restartHttpServer_requests (env : environment) (rq : nat) (w : world) :
  requests (restartHttpServer env rq w) = requests w.
Proof.
  unfold restartHttpServer. destruct (serverRestartPromise (this w)); [done|].
  unfold adopt.
  by destruct (and_then (set_serverRestartPromise (Some (promises w)))
                 (restart_cycle env (this w))) as [? ?|? [?|?]|? ? ?].
Qed.

(** [X8] The constructor: the quiet time after which a notification restarts
    the server is the configured [serverRestartDelayTime], except that a
    configured 0 counts as not configured and gives 100.  Time that passes
    after a notification and stays below the quiet time restarts nothing
    and leaves the timer running; once the quiet time is reached,
    [restartHttpServer] is called, once. *)
Theorem configured_delay_is_the_quiet_time_and_zero_means_100
  (env : environment) (w : world) (what : notification) (d dt : Z) :
  serverRestartDelayTime env = Some d ->
  (0 <= dt)%Z ->
  let quiet_time := if decide (d = 0%Z) then 100%Z else d in
  let w1 := step env (Notify what) w in
  let w2 := step env (Elapse dt) w1 in
  delay env = quiet_time
  /\ ((dt < quiet_time)%Z ->
        requests w2 = requests w /\ this w2 = this w /\ pending w2 = pending w
        /\ lastCall w2 = lastCall w1)
  /\ ((quiet_time <= dt)%Z ->
        requests w2 = S (requests w) /\ lastCall w2 = None).
Proof.
  intros Hd Hdt quiet_time w1 w2.
  assert (Hq : delay env = quiet_time).
  { unfold delay, quiet_time. by rewrite Hd. }
  split; [exact Hq|].
  unfold w2, w1. cbn [step]. unfold serverWatcherDidChange, scheduleServerRestart, elapse.
  rewrite decide_False by lia. cbn [lastCall set_now set_lastCall now]. rewrite Hq.
  split; intros Hlt.
  - rewrite decide_False by lia. done.
  - rewrite decide_True by lia. unfold request_restart.
    rewrite restartHttpServer_requests. split; [done|].
    unfold restartHttpServer. cbn [this set_requests set_lastCall set_now].
    destruct (serverRestartPromise (this w)); [done|].
    unfold adopt.
    by destruct (and_then _ (restart_cycle env (this w))) as [? ?|? [?|?]|? ? ?].
Qed.

Lemma configured_delay_is_the_quiet_time_and_zero_means_100_witness :
  let env := {| serverRoot := "server"; serverRestartDelayTime := Some 0%Z;
                addons := []; existsSync := fun _ => true; readFileSync := fun p => p;
                path_resolve := fun p => p; path_sep := "/"%char;
                cleanBaseURL := fun _ => "/" |} in
  let w := run env (repeat (Deliver 0 None) 6) (boot env (demo_options false) None) in
  delay env = 100%Z
  /\ requests (run env [Notify Changed; Elapse 99] w) = requests w
  /\ requests (run env [Notify Changed; Elapse 100] w) = S (requests w).
Proof.
  intros env w.
  destruct (configured_delay_is_the_quiet_time_and_zero_means_100 env w Changed 0 99
              eq_refl) as (H1 & H2 & _); [lia|].
  destruct (configured_delay_is_the_quiet_time_and_zero_means_100 env w Changed 0 100
              eq_refl) as (_ & _ & H3); [lia|].
  split; [exact H1|]. split.
  - apply H2. reflexivity.
  - apply H3. simpl. lia.
Defined.

(** ** What holds whatever happens *)

Section Kept.

Variable env : environment.
Variable P : task -> Prop.
Hypothesis HP : preserved env P.

Lemma keeps_refl (s : task) : keeps P s s.
Proof. intros H. exact H. Qed.

Lemma ends_keeping_refl (s : task) (r : result unit) : ends_keeping P s s r.
Proof. intros H. exact H. Qed.

Lemma ends_keeping_keeps (a b : task) (r : result unit) :
  ends_keeping P a b r -> keeps P a b.
Proof. intros H. exact H. Qed.

Lemma ends_keeping_rejected (s : task) (e : error) : ends_keeping P s s (Rejected e).
Proof. intros H. exact H. Qed.

(** A [then], or a reaction, on a promise that keeps [P]: what is left to
    show is that the promise and the reaction keep it. *)
Ltac then_keeps :=
  apply (obeys_then (keeps P) (ends_keeping P) (ends_keeping P));
    [|apply ends_keeping_keeps|apply ends_keeping_rejected|].

Ltac react_keeps :=
  apply (obeys_react (keeps P) (ends_keeping P) (ends_keeping P));
    [|apply ends_keeping_keeps|].

Lemma keeps_fold_use (ms : list middleware) (s : task) :
  P s -> P (fold_left (fun s m => use m s) ms s).
Proof.
  revert s. induction ms as [|m ms IH]; intros s Hs; simpl; [done|].
  apply IH. by apply (by_use env P HP).
Qed.

Lemma keeps_fold_destroy (l : list nat) (s : task) :
  P s -> P (fold_left (fun s socket => record (Destroy socket) s) l s).
Proof.
  revert s. induction l as [|x l IH]; intros s Hs; simpl; [done|].
  apply IH. by apply (by_record env P HP).
Qed.

Lemma invoke_keeps (c : collaborator) (f : callable) (s0 s : task) :
  keeps P s0 s -> obeys (keeps P) (ends_keeping P) 1 s0 (caught (invoke c f s)).
Proof.
  intros Hq. unfold invoke.
  assert (H1 : keeps P s0 (fold_left (fun s m => use m s) (mounts f) s)).
  { intros H0. by apply keeps_fold_use, Hq. }
  destruct (completes f); simpl.
  - constructor. exact H1.
  - constructor. exact H1.
  - apply obeys_await; [exact H1|].
    intros [e|] s'; constructor; intros Hs; by apply (by_record env P HP).
Qed.

Lemma processAppMiddlewares_keeps (s : task) :
  obeys (keeps P) (ends_keeping P) 1 s (caught (processAppMiddlewares s)).
Proof.
  unfold processAppMiddlewares.
  destruct (server_module s) as [[e| |n body]|]; simpl.
  - constructor. apply ends_keeping_refl.
  - constructor. apply ends_keeping_refl.
  - destruct (n =? 3).
    + constructor. intros Hs. by apply (by_use env P HP).
    + apply invoke_keeps. intros Hs. by apply (by_invoke_server env P HP).
  - constructor. apply ends_keeping_refl.
Qed.

Lemma series_keeps {X} (iterator : X -> task -> outcome unit) (array : list X)
  (n : nat) (s0 : task) (current : outcome unit) :
  (forall x s, obeys (keeps P) (ends_keeping P) 1 s (caught (iterator x s))) ->
  obeys (keeps P) (ends_keeping P) n s0 current ->
  obeys (keeps P) (ends_keeping P) (n + 2 * length array) s0
    (fold_left (fun current x => then_ current (fun _ => iterator x)) array current).
Proof.
  intros Hit. revert n current.
  induction array as [|x array IH]; intros n current H; simpl.
  - by replace (n + 0) with n by lia.
  - replace (n + S (length array + S (length array + 0)))
      with ((n + 2) + 2 * length array) by lia.
    apply IH. then_keeps; [done|].
    intros _ s. apply Hit.
Qed.

Lemma mapSeries_keeps {X} (iterator : X -> task -> outcome unit) (array : list X)
  (s0 s : task) :
  (forall x s, obeys (keeps P) (ends_keeping P) 1 s (caught (iterator x s))) ->
  keeps P s0 s ->
  obeys (keeps P) (ends_keeping P) (2 * length array + 1) s0 (mapSeries array iterator s).
Proof.
  intros Hit Hq. unfold mapSeries.
  replace (2 * length array + 1) with ((0 + 2 * length array) + 1) by lia.
  then_keeps.
  - apply series_keeps; [done|]. constructor. exact Hq.
  - intros _ s1. constructor. apply ends_keeping_refl.
Qed.

Lemma processAddonMiddlewares_keeps (s : task) :
  obeys (keeps P) (ends_keeping P) (2 * length (addons env) + 1) s
    (processAddonMiddlewares env s).
Proof.
  unfold processAddonMiddlewares. apply mapSeries_keeps.
  - intros addon s'. destruct (serverMiddleware addon).
    + apply invoke_keeps. intros Hs. by apply (by_invoke_addon env P HP).
    + constructor. apply ends_keeping_refl.
  - intros Hs. by apply (by_record env P HP).
Qed.

Lemma listen_keeps (s : task) :
  obeys (keeps P) (ends_keeping P) 1 s
    (listen (port (startOptions s)) (host (startOptions s)) s).
Proof.
  unfold listen. destruct (httpServer s).
  - apply obeys_await; [intros Hs; by apply (by_listen env P HP)|].
    intros [e|] s'; constructor; intros Hs.
    + by apply (by_record env P HP).
    + apply (by_record env P HP); [done|]. by apply (by_record env P HP).
  - constructor. apply ends_keeping_refl.
Qed.

Lemma startHttpServer_keeps (s : task) :
  obeys (keeps P) (ends_keeping P) (build_bound env) s (caught (startHttpServer env s)).
Proof.
  unfold startHttpServer.
  destruct (setupHttpServer env (use Compression (express s))) as [e|s2] eqn:E; simpl.
  - constructor. intros Hs. by apply (by_express env P HP).
  - assert (H3 : keeps P s
               (set_startOptions (with_httpServer (httpServer s2) (startOptions s2)) s2)).
    { intros Hs. by apply (by_setup env P HP s). }
    unfold build_bound.
    replace (2 * length (addons env) + 7)
      with (((0 + 2) + S (2 * length (addons env) + 1)) + 3) by lia.
    then_keeps.
    + then_keeps.
      * then_keeps; [constructor; exact H3|].
        intros _ s'. apply processAppMiddlewares_keeps.
      * intros _ s'. erewrite caught_obeys; apply processAddonMiddlewares_keeps.
    + intros _ s'.
      assert (Hc : obeys (keeps P) (ends_keeping P) (1 + 1) s'
        (catch_ (listen (port (startOptions s')) (host (startOptions s')) s')
           (fun _ s'' => Threw s'' (bind_failure (startOptions s''))))).
      { eapply obeys_react; [apply listen_keeps|apply ends_keeping_keeps|].
        intros a b [v|e] s1 _; simpl; constructor; apply ends_keeping_refl. }
      erewrite caught_obeys; exact Hc.
Qed.

Lemma keeps_from (n : nat) (s0 s : task) (o : outcome unit) :
  keeps P s0 s ->
  obeys (keeps P) (ends_keeping P) n s o -> obeys (keeps P) (ends_keeping P) n s0 o.
Proof.
  intros Hq H. inversion H as [? ? ? ? HQ|? ? ? ? ? HG Hk]; subst; constructor.
  - intros Hs. apply HQ, Hq, Hs.
  - intros Hs. apply HG, Hq, Hs.
  - exact Hk.
Qed.

Lemma stopHttpServer_keeps (s : task) : obeys (keeps P) (ends_keeping P) 1 s (stopHttpServer s).
Proof.
  unfold stopHttpServer. destruct (httpServer s) as [server|].
  - apply obeys_await.
    + intros Hs. apply keeps_fold_destroy. by apply (by_record env P HP).
    + intros [e|] s'; constructor; intros Hs.
      * by apply (by_record env P HP).
      * apply (by_stop env P HP). by apply (by_record env P HP).
  - constructor. apply ends_keeping_refl.
Qed.

Lemma restart_attempt_keeps (s : task) :
  obeys (keeps P) (ends_keeping P) (build_bound env + 3) s (restart_attempt env s).
Proof.
  unfold restart_attempt.
  replace (build_bound env + 3) with ((1 + S (build_bound env)) + 1) by lia.
  then_keeps.
  - then_keeps; [apply stopHttpServer_keeps|].
    intros _ s'. eapply keeps_from; [|apply startHttpServer_keeps].
    intros Hs. by apply (by_purge env P HP).
  - intros _ s'. constructor. intros Hs.
    repeat (apply (by_record env P HP); [done|]). done.
Qed.

Lemma restart_cycle_keeps (s : task) :
  obeys (keeps P) (ends_keeping P) (cycle_bound env) s (restart_cycle env s).
Proof.
  unfold restart_cycle, finally_, catch_.
  replace (cycle_bound env) with (((build_bound env + 3) + 1) + 1)
    by (unfold cycle_bound, build_bound; lia).
  react_keeps.
  - react_keeps; [apply restart_attempt_keeps|].
    intros a b [[]|e] s1 _; simpl; constructor; [apply ends_keeping_refl|].
    intros Hs. by apply (by_record env P HP).
  - intros a b r s1 _. simpl. constructor. intros Hs. by apply (by_slot env P HP).
Qed.

Lemma start_keeps (options : start_options) (s : task) :
  obeys (keeps P) (ends_keeping P) (build_bound env + 1) (set_startOptions options s)
    (caught (start env options s)).
Proof.
  unfold start.
  pose proof (startHttpServer_keeps (set_startOptions options s)) as H.
  assert (Hgen : forall o,
    obeys (keeps P) (ends_keeping P) (build_bound env) (set_startOptions options s) o ->
    obeys (keeps P) (ends_keeping P) (build_bound env + 1) (set_startOptions options s)
      (then_ o (fun _ s' =>
         Settled (record (UiWriteLine (serving_line env (startOptions s'))) s')
           (Fulfilled tt)))).
  { intros o Ho.
    apply (obeys_then (keeps P) (ends_keeping P) (ends_keeping P) (build_bound env) 0);
      [exact Ho|apply ends_keeping_keeps|apply ends_keeping_rejected|].
    intros _ s2. simpl. constructor. intros Hs. by apply (by_record env P HP). }
  destruct (startHttpServer env (set_startOptions options s)) as [s1 e|s1 r|s1 w k] eqn:E.
  - simpl in *. constructor. by apply obeys_settled_inv in H.
  - simpl in H. erewrite caught_obeys; by apply Hgen.
  - simpl in H. erewrite caught_obeys; by apply Hgen.
Qed.

(** *** The loop *)

Lemma chains_keep_same (w w' : world) :
  pending w' = pending w -> chains_keep P w -> chains_keep P w'.
Proof. unfold chains_keep. by intros ->. Qed.

Lemma adopt_keeps (p : nat) (who : owner) (o : outcome unit) (w : world)
  (n : nat) (s0 : task) :
  obeys (keeps P) (ends_keeping P) n s0 (caught o) ->
  chains_keep P w ->
  chains_keep P (adopt p who o w) /\ (P s0 -> P (this (adopt p who o w))).
Proof.
  intros Ho Hw. destruct o as [s e|s r|s wt k]; simpl in Ho.
  - apply obeys_settled_inv in Ho. split; [exact Hw | exact Ho].
  - apply obeys_settled_inv in Ho. destruct r; (split; [exact Hw | exact Ho]).
  - apply obeys_pending_inv in Ho as [Hg Hk]. split; [|exact Hg].
    intros q c. cbn [adopt pending set_pending set_this].
    destruct (decide (q = p)) as [->|Hne].
    + rewrite lookup_insert_eq. intros [= <-]. by exists (pred n).
    + rewrite lookup_insert_ne by done. apply Hw.
Qed.

Lemma restartHttpServer_keeps (rq : nat) (w : world) :
  chains_keep P w ->
  chains_keep P (restartHttpServer env rq w)
  /\ (P (this w) -> P (this (restartHttpServer env rq w))).
Proof.
  intros Hw. unfold restartHttpServer.
  destruct (serverRestartPromise (this w)) as [p|]; [done|].
  pose proof (restart_cycle_keeps (this w)) as Ho.
  destruct (restart_cycle_pending env (this w)) as (s1 & wt & k & E).
  rewrite E in *. cbn [and_then].
  apply (adopt_keeps _ _ _ _ (cycle_bound env) (this w)); [|by apply (chains_keep_same w)].
  simpl. apply obeys_pending_inv in Ho as [Hg Hk].
  destruct (cycle_bound env) as [|n] eqn:En.
  { unfold cycle_bound in En. lia. }
  constructor; [|exact Hk]. intros Hs. by apply (by_slot env P HP), Hg.
Qed.

Lemma reactions_keep (l : list (nat * nat)) (w : world) :
  chains_keep P w ->
  chains_keep P (fold_left (fun w r => restartHttpServer env (snd r) w) l w)
  /\ (P (this w) ->
       P (this (fold_left (fun w r => restartHttpServer env (snd r) w) l w))).
Proof.
  revert w. induction l as [|r l IH]; intros w Hw; simpl; [done|].
  destruct (restartHttpServer_keeps (snd r) w Hw) as [H1 H2].
  destruct (IH _ H1) as [H3 H4]. split; [exact H3|]. intros Hs. by apply H4, H2.
Qed.

Lemma run_reactions_keeps (p : nat) (w : world) :
  chains_keep P w ->
  chains_keep P (run_reactions env p w)
  /\ (P (this w) -> P (this (run_reactions env p w))).
Proof.
  intros Hw. unfold run_reactions.
  set (w' := set_reactions (filter (fun r => fst r <> p) (reactions w)) w).
  assert (Hw' : chains_keep P w') by (by apply (chains_keep_same w)).
  destruct (reactions_keep (filter (fun r => fst r = p) (reactions w)) w' Hw') as [H1 H2].
  split; [exact H1 | exact H2].
Qed.

Lemma deliver_keeps (p : nat) (err : option error) (w : world) :
  chains_keep P w ->
  chains_keep P (deliver env p err w) /\ (P (this w) -> P (this (deliver env p err w))).
Proof.
  intros Hc. unfold deliver. destruct (pending w !! p) as [c|] eqn:E; [|done].
  destruct (Hc p c E) as [n Hn].
  assert (Hd : chains_keep P (set_pending (delete p (pending w)) w)).
  { intros q d. cbn [pending set_pending]. intros Hq.
    apply lookup_delete_Some in Hq as [_ Hq]. by apply (Hc q). }
  assert (Ho : obeys (keeps P) (ends_keeping P) n (this w) (caught (resume c err (this w)))).
  { erewrite caught_obeys; apply Hn. }
  destruct (adopt_keeps p (chain_owner c) _ _ n (this w) Ho Hd) as [H1 H2].
  destruct (run_reactions_keeps p _ H1) as [H3 H4].
  destruct (resume c err (this w)) as [s e|s r|s wt k]; [| |done].
  - split; [exact H3|]. intros Hs. by apply H4, H2.
  - split; [exact H3|]. intros Hs. by apply H4, H2.
Qed.

Lemma step_keeps (ev : event) (w : world) :
  chains_keep P w ->
  chains_keep P (step env ev w)
  /\ (respects P ev -> P (this w) -> P (this (step env ev w))).
Proof.
  intros Hw. destruct ev as [p err|socket|id|what|dt| |m|key m]; cbn [step respects].
  - destruct (deliver_keeps p err w Hw) as [H1 H2]. by split.
  - split; [done|]. intros Hev. apply Hev.
  - split; [done|]. intros Hev. apply Hev.
  - done.
  - unfold elapse. case_decide; [done|].
    cbn [lastCall set_now]. destruct (lastCall w) as [t0|]; [|done].
    case_decide; [|done].
    unfold request_restart.
    destruct (restartHttpServer_keeps (requests w)
                (set_requests (S (requests w)) (set_lastCall None (set_now (now w + dt)%Z w)))
                Hw) as [H1 H2].
    by split.
  - unfold request_restart.
    destruct (restartHttpServer_keeps (requests w) (set_requests (S (requests w)) w) Hw)
      as [H1 H2].
    by split.
  - split; [done|]. intros Hev. apply Hev.
  - split; [done|]. intros Hev. apply Hev.
Qed.

Lemma run_keeps (events : list event) (w : world) :
  chains_keep P w ->
  chains_keep P (run env events w)
  /\ (Forall (respects P) events -> P (this w) -> P (this (run env events w))).
Proof.
  revert w. induction events as [|ev events IH]; intros w Hw; [done|].
  change (run env (ev :: events) w) with (run env events (step env ev w)).
  destruct (step_keeps ev w Hw) as [H1 H2]. destruct (IH _ H1) as [H3 H4].
  split; [exact H3|]. intros Hall Hs.
  apply Forall_cons in Hall as [Hev Hall]. by apply H4, H2.
Qed.

Lemma boot_keeps (options : start_options) (disk : option server_export) :
  chains_keep P (boot env options disk)
  /\ (P (created options disk) -> P (this (boot env options disk))).
Proof.
  unfold boot.
  apply (adopt_keeps _ _ _ _ (build_bound env + 1) (created options disk)).
  - apply (start_keeps options (created options disk)).
  - intros p c. cbn [pending]. by rewrite lookup_empty.
Qed.

(** In every state reachable after [start], the pending promises keep
    [P]. *)
Lemma chains_reachable (options : start_options) (disk : option server_export)
  (events : list event) :
  chains_keep P (run env events (boot env options disk)).
Proof. apply run_keeps, boot_keeps. Qed.

(** A property that each action preserves and that holds of the task as
    created holds in every state reachable after [start]. *)
Lemma kept_reachable (options : start_options) (disk : option server_export)
  (events : list event) :
  Forall (respects P) events ->
  P (created options disk) ->
  P (this (run env events (boot env options disk))).
Proof.
  intros Hall H0. destruct (boot_keeps options disk) as [H1 H2].
  by apply (run_keeps events _ H1), H2.
Qed.

End Kept.

(** ** The options of [start] *)

Lemma same_settings_refl (o : start_options) : same_settings o o.
Proof. by repeat split. Qed.

Lemma passing_as_started (env : environment) (options : start_options) (e : effect) :
  passing e = true -> as_started env options e.
Proof. by destruct e. Qed.

Lemma faithful_adds (env : environment) (options : start_options) (s s' : task)
  (tr : list effect) :
  startOptions s' = startOptions s -> httpServer s' = httpServer s ->
  trace s' = trace s ++ tr -> Forall (as_started env options) tr ->
  faithful env options s -> faithful env options s'.
Proof.
  intros Ho Hh Ht Htr (H1 & H2 & H3). unfold faithful. rewrite Ho, Hh, Ht.
  split; [done|]. split; [done|]. apply Forall_app. by split.
Qed.

Lemma faithful_same (env : environment) (options : start_options) (s s' : task) :
  startOptions s' = startOptions s ->
  (forall server, httpServer s' = Some server -> httpServer s = Some server) ->
  trace s' = trace s ->
  faithful env options s -> faithful env options s'.
Proof.
  intros Ho Hh Ht (H1 & H2 & H3). unfold faithful. rewrite Ho, Ht.
  split; [done|]. split; [|done]. intros server Hs. by apply H2, Hh.
Qed.

Lemma faithful_preserved (env : environment) (options : start_options) :
  preserved env (faithful env options).
Proof.
  constructor.
  - intros e s He. apply (faithful_adds _ _ _ _ [e]); try done.
    constructor; [by apply passing_as_started | done].
  - intros m s. unfold use. destruct (app s) as [a|]; [|done].
    apply (faithful_adds _ _ _ _ [Use (app_id a) m]); try done. by repeat constructor.
  - intros s. apply (faithful_adds _ _ _ _ [Express (fresh s); Use (fresh s) Compression]);
      try done.
    + simpl. by rewrite <- app_assoc.
    + by repeat constructor.
  - intros s s2 (H1 & H2 & H3) E. rewrite (setupHttpServer_inr env s s2 E).
    destruct H1 as (Ha & Hb & Hc & Hd & He & Hf & Hg).
    split; [by repeat split|]. split; [by intros server [= <-]|].
    cbn [build_begins trace]. apply Forall_app. split; [done|].
    repeat constructor. unfold creates. rewrite Hc, Hd, He.
    destruct (ssl options) eqn:Es; simpl; auto.
  - intros s Hs. apply (faithful_adds _ _ s _ [InvokeServer (the_app s) (startOptions s)]);
      try done.
    constructor; [apply Hs | done].
  - intros x s Hs.
    apply (faithful_adds _ _ s _ [InvokeAddon x (the_app s) (startOptions s)]); try done.
    constructor; [apply Hs | done].
  - intros server s Hs.
    apply (faithful_adds _ _ s _
             [Listen server (port (startOptions s)) (host (startOptions s))]); try done.
    destruct Hs as ((Ha & Hb & _) & _). constructor; [by split | done].
  - intros s. by apply faithful_same.
  - intros s.
    apply (faithful_adds _ _ _ _ [PurgeCache (absoluteServerRoot env (serverRoot env))]);
      try done.
    by repeat constructor.
  - intros v s. by apply faithful_same.
Qed.

Lemma faithful_respected (env : environment) (options : start_options) (ev : event) :
  respects (faithful env options) ev.
Proof. destruct ev; simpl; try done; intros s; by apply faithful_same. Qed.

(** [X9] [start], [startHttpServer] and [restartHttpServer]: whatever happens
    after [start(options)], the task keeps the settings it was started
    with, and [options.httpServer] is the server the task holds whenever
    it holds one.  Every server ever created, by the first build or by a
    restart, is of the kind [options.ssl] asks for, an https server being
    given the contents of the configured key and certificate files; every
    bind is made on [options.port] and [options.host]; and the custom
    server module and every addon hook are handed these settings.  (The
    collaborators are taken not to change the options they are handed.) *)
Theorem every_build_uses_the_options_of_start
  (env : environment) (options : start_options) (disk : option server_export)
  (events : list event) :
  let s := this (run env events (boot env options disk)) in
  same_settings (startOptions s) options
  /\ (forall server, httpServer s = Some server ->
        opt_httpServer (startOptions s) = Some server)
  /\ (forall server p h, In (Listen server p h) (trace s) ->
        p = port options /\ h = host options)
  /\ (forall server a, In (CreateServer server a) (trace s) -> ssl options = false)
  /\ (forall server key cert a, In (CreateHttpsServer server key cert a) (trace s) ->
        ssl options = true
        /\ key = readFileSync env (sslKey options)
        /\ cert = readFileSync env (sslCert options))
  /\ (forall a o, In (InvokeServer a o) (trace s) -> same_settings o options)
  /\ (forall x a o, In (InvokeAddon x a o) (trace s) -> same_settings o options).
Proof.
  intros s.
  assert (H : faithful env options s).
  { apply (kept_reachable env _ (faithful_preserved env options)).
    - apply Forall_forall. intros ev _. apply faithful_respected.
    - split; [apply same_settings_refl|]. split; [done | constructor]. }
  destruct H as (H1 & H2 & H3). rewrite Forall_forall in H3.
  split; [exact H1|]. split; [exact H2|].
  split; [|split; [|split; [|split]]].
  - intros server p h Hin. apply list_elem_of_In in Hin. by apply H3 in Hin.
  - intros server a Hin. apply list_elem_of_In in Hin. by apply H3 in Hin.
  - intros server key cert a Hin. apply list_elem_of_In in Hin. by apply H3 in Hin.
  - intros a o Hin. apply list_elem_of_In in Hin. by apply H3 in Hin.
  - intros x a o Hin. apply list_elem_of_In in Hin. by apply H3 in Hin.
Qed.

(** ** The ids of the sockets *)

Lemma registry_in_range_same (s s' : task) :
  sockets s' = sockets s -> nextSocketId s' = nextSocketId s ->
  registry_in_range s -> registry_in_range s'.
Proof. unfold registry_in_range. by intros -> ->. Qed.

Lemma registry_in_range_preserved (env : environment) : preserved env registry_in_range.
Proof.
  constructor; try (intros; by eapply registry_in_range_same; [| |eassumption]).
  - intros m s. unfold use. destruct (app s); [|done]. by apply registry_in_range_same.
  - intros s s2 _ E. apply setupHttpServer_registry in E as [He Hn].
    intros id. cbn [set_startOptions sockets]. rewrite He, lookup_empty.
    by intros [x Hx].
Qed.

Lemma registry_in_range_respected (ev : event) : respects registry_in_range ev.
Proof.
  destruct ev as [| socket | i | | | | |]; simpl; try done.
  - intros s Hs id. cbn [on_connection sockets nextSocketId set_sockets
                         set_nextSocketId].
    destruct (decide (id = nextSocketId s)) as [->|Hne]; [lia|].
    rewrite lookup_insert_ne by done. intros Hid. apply Hs in Hid. lia.
  - intros s Hs id. cbn [on_socket_close sockets nextSocketId set_sockets].
    intros [x Hx]. apply lookup_delete_Some in Hx as [_ Hx]. apply Hs. by exists x.
Qed.

(** [X10] [setupHttpServer], the 'connection' listener: whatever happens after
    [start], through restarts, connections and close notifications in any
    order, every id in use in the registry is below [nextSocketId].  So
    the id given to a new connection is never in use: accepting a
    connection adds one entry and replaces none. *)
Theorem a_connection_never_replaces_a_tracked_socket
  (env : environment) (options : start_options) (disk : option server_export)
  (events : list event) (socket : nat) :
  let s := this (run env events (boot env options disk)) in
  (forall id c, sockets s !! id = Some c -> id < nextSocketId s)
  /\ sockets s !! nextSocketId s = None
  /\ (forall id c, sockets s !! id = Some c ->
        sockets (on_connection socket s) !! id = Some c)
  /\ sockets (on_connection socket s) !! nextSocketId s = Some socket
  /\ size (sockets (on_connection socket s)) = S (size (sockets s)).
Proof.
  intros s.
  assert (H : registry_in_range s).
  { apply (kept_reachable env _ (registry_in_range_preserved env)).
    - apply Forall_forall. intros ev _. apply registry_in_range_respected.
    - intros id. cbn [created sockets]. rewrite lookup_empty. by intros [x Hx]. }
  assert (Hfree : sockets s !! nextSocketId s = None).
  { destruct (sockets s !! nextSocketId s) as [c|] eqn:E; [|done].
    assert (nextSocketId s < nextSocketId s) by (apply H; by rewrite E). lia. }
  split; [intros id c Hc; apply H; by rewrite Hc|]. split; [exact Hfree|].
  cbn [on_connection sockets set_sockets set_nextSocketId].
  split; [|split].
  - intros id c Hc. rewrite lookup_insert_ne; [done|]. intros <-. congruence.
  - by rewrite lookup_insert_eq.
  - by rewrite map_size_insert_None.
Qed.

(** ** The modules that stay loaded *)

Lemma loaded_snoc (key : string) (events : list event) (ev : event) :
  loaded key (events ++ [ev])
  = match ev with
    | ModuleLoaded k m => if decide (k = key) then Some m else loaded key events
    | _ => loaded key events
    end.
Proof. unfold loaded. rewrite fold_left_app. simpl. by destruct ev. Qed.

Section Loads.

Variable env : environment.
Variable key : string.

(** [F x]: how the cache entry of [key] relates to [x], the module last
    loaded as [key]. *)
Variable F : option nat -> task -> Prop.
Hypothesis F_preserved : forall x, preserved env (F x).
Hypothesis F_cache : forall x s s',
  require_cache s' !! key = require_cache s !! key -> F x s -> F x s'.
Hypothesis F_load : forall x m s,
  F x s -> F (Some m) (set_require_cache (<[key := m]> (require_cache s)) s).

Lemma follows_the_loads (options : start_options) (disk : option server_export)
  (events : list event) :
  F None (created options disk) ->
  F (loaded key events) (this (run env events (boot env options disk))).
Proof.
  intros H0. induction events as [|ev events IH] using rev_ind.
  - by apply (kept_reachable env _ (F_preserved None) options disk []).
  - rewrite run_snoc, loaded_snoc.
    set (w := run env events (boot env options disk)) in *.
    pose proof (chains_reachable env _ (F_preserved (loaded key events)) options disk events)
      as Hc.
    destruct (step_keeps env _ (F_preserved (loaded key events)) ev w Hc) as [_ Hs].
    destruct ev as [p err|socket|id|what|dt| |m|k m]; try (by apply Hs).
    + apply Hs; [|done]. intros s. by apply F_cache.
    + apply Hs; [|done]. intros s. by apply F_cache.
    + apply Hs; [|done]. intros s. by apply F_cache.
    + case_decide as Hk.
      * subst k. cbn [step this set_this]. by apply (F_load (loaded key events)).
      * apply Hs; [|done]. intros s. apply F_cache.
        cbn [require_cache set_require_cache]. by rewrite lookup_insert_ne.
Qed.

End Loads.

Lemma cache_entry_preserved (env : environment) (key : string) (R : option nat -> Prop) :
  (begins_with (absoluteServerRoot env (serverRoot env)) key -> R None) ->
  preserved env (fun s => R (require_cache s !! key)).
Proof.
  intros Hroot. constructor; try done.
  - intros m s. unfold use. by destruct (app s).
  - intros s s2 Hs E. by rewrite (setupHttpServer_inr env s s2 E).
  - intros s. cbn [invalidateCache require_cache record set_require_cache].
    rewrite purge_lookup. case_decide as Hd; [|done].
    intros _. by apply Hroot, indexOf_zero.
Qed.

(** [X11] [invalidateCache] in the restarts: whatever happens after [start],
    whatever the number of restarts, the entry of the module cache for a
    file outside the server root is the module last loaded for it: the
    task never evicts it.  For a file under the root the entry is that
    module too, or none: a purge only removes. *)
Theorem restarts_evict_only_the_modules_under_the_root
  (env : environment) (options : start_options) (disk : option server_export)
  (events : list event) (key : string) :
  let s := this (run env events (boot env options disk)) in
  (~ begins_with (absoluteServerRoot env (serverRoot env)) key ->
     require_cache s !! key = loaded key events)
  /\ (require_cache s !! key = None \/ require_cache s !! key = loaded key events).
Proof.
  intros s. split.
  - intros Hout.
    apply (follows_the_loads env key (fun x s => require_cache s !! key = x)).
    + intros x. by apply (cache_entry_preserved env key (fun v => v = x)).
    + intros x s1 s2 E. by rewrite E.
    + intros x m s1 _. cbn [require_cache set_require_cache]. by rewrite lookup_insert_eq.
    + apply lookup_empty.
  - apply (follows_the_loads env key
             (fun x s => require_cache s !! key = None \/ require_cache s !! key = x)).
    + intros x.
      apply (cache_entry_preserved env key (fun v => v = None \/ v = x)). by left.
    + intros x s1 s2 E. by rewrite E.
    + intros x m s1 _. right. cbn [require_cache set_require_cache].
      by rewrite lookup_insert_eq.
    + left. apply lookup_empty.
Qed.

(** A module of the application's dependencies stays in the cache through
    two restarts, the module of the custom server does not. *)
Example modules_of_the_server_are_evicted :
  let w := run (demo_env true)
             (demo_started
              ++ [ModuleLoaded "/app/node_modules/express/index.js" 1;
                  ModuleLoaded "/app/server/index.js" 2;
                  CallRestart; CallRestart]
              ++ repeat (Deliver 1 None) 15 ++ repeat (Deliver 2 None) 15)
             (boot (demo_env true) (demo_options false) None) in
  require_cache (this w) !! "/app/node_modules/express/index.js" = Some 1
  /\ require_cache (this w) !! "/app/server/index.js" = None
  /\ settled w = [(Initial, Resolved); (Request 0, Resolved); (Request 1, Resolved)].
Proof. vm_compute. repeat split. Qed.

(** ** A restart during [start] *)

(** [X12] [restartHttpServer] and [start]: only restarts wait for each other.
    As long as no restart was requested, [serverRestartPromise] is null,
    also while the promise of [start] is still pending; a restart
    requested then does not wait for [start]: its cycle begins at that
    very call, the promise of [start] staying pending beside it, and it
    asks the server that [start] created to close, destroying the sockets
    of the registry. *)
Theorem restart_does_not_wait_for_start
  (env : environment) (options : start_options) (disk : option server_export)
  (events : list event) (c : chain) :
  let w := run env events (boot env options disk) in
  requests w = 0 ->
  pending w !! 0 = Some c ->
  let w' := step env CallRestart w in
  serverRestartPromise (this w) = None
  /\ chain_owner c = Initial
  /\ pending w' !! 0 = Some c
  /\ serverRestartPromise (this w') = Some (promises w)
  /\ (forall server, httpServer (this w) = Some server ->
        (exists c', pending w' !! promises w = Some c'
           /\ chain_owner c' = Request 0 /\ waits c' = ServerClose server)
        /\ exists destroyed,
             trace (this w') = trace (this w) ++ Close server :: map Destroy destroyed
             /\ destroyed ≡ₚ (map_to_list (sockets (this w))).*2).
Proof.
  intros w Hreq Hp w'.
  destruct (invariant_reachable env options disk events) as [_ Hchains Hslot Htickets _].
  fold w in Hchains, Hslot, Htickets.
  assert (Es : serverRestartPromise (this w) = None).
  { destruct (serverRestartPromise (this w)) as [p|] eqn:Es; [|done].
    destruct Hslot as ((d & rq & Hd & Hown) & _).
    unfold current_request in Htickets. rewrite Es, Hd, Hown, Hreq in Htickets.
    apply Permutation_length in Htickets. rewrite !length_app in Htickets.
    simpl in Htickets. lia. }
  rewrite Es in Hslot. destruct Hslot as [Hinit _].
  destruct (Hchains 0 c Hp) as [Hlt _].
  split; [exact Es|]. split; [by apply (Hinit 0)|].
  unfold w'. cbn [step]. unfold request_restart, restartHttpServer.
  cbn [this set_requests]. rewrite Es. cbn [promises set_requests].
  split; [|split].
  - destruct (restart_cycle_pending env (this w)) as (s1 & wt & k & E). rewrite E.
    cbn [and_then adopt pending set_pending set_this set_promises set_requests].
    rewrite lookup_insert_ne by lia. exact Hp.
  - destruct (restart_cycle_pending env (this w)) as (s1 & wt & k & E).
    pose proof (restart_cycle_obeys env (this w)) as Ho. rewrite E in Ho.
    apply obeys_pending_inv in Ho as [(Hq & _) _]. rewrite E.
    cbn [and_then adopt this set_pending set_this serverRestartPromise
         set_serverRestartPromise].
    done.
  - intros server Hsrv.
    unfold restart_cycle, restart_attempt, finally_, catch_, then_, stopHttpServer, await.
    rewrite Hsrv. cbn [react and_then adopt pending set_pending set_this this].
    split.
    + rewrite lookup_insert_eq. eexists. split; [reflexivity|]. simpl. by rewrite Hreq.
    + exists (map_to_list (sockets (this w))).*2. split; [|done].
      cbn [trace set_serverRestartPromise].
      destruct (fold_record_fields Destroy (map_to_list (sockets (this w))).*2
                  (record (Close server) (this w))) as (Htr & _ & _).
      rewrite Htr. simpl. by rewrite <- app_assoc.
Qed.

Lemma restart_does_not_wait_for_start_witness :
  let w := run (demo_env true) [] (boot (demo_env true) (demo_options false) None) in
  let w' := step (demo_env true) CallRestart w in
  (exists c, pending w' !! 0 = Some c)
  /\ serverRestartPromise (this w') = Some (promises w)
  /\ exists destroyed,
       trace (this w') = trace (this w) ++ Close 1 :: map Destroy destroyed
       /\ destroyed ≡ₚ (map_to_list (sockets (this w))).*2.
Proof.
  intros w w'.
  assert (Hreq : requests w = 0) by (vm_compute; reflexivity).
  assert (Hsrv : httpServer (this w) = Some 1) by (vm_compute; reflexivity).
  destruct (pending w !! 0) as [c|] eqn:E; [|vm_compute in E; discriminate].
  destruct (restart_does_not_wait_for_start (demo_env true) (demo_options false) None []
              c Hreq E) as (_ & _ & H1 & H2 & H3).
  split; [exists c; exact H1|]. split; [exact H2|].
  destruct (H3 1 Hsrv) as [_ H4]. exact H4.
Defined.

(** ** Promises that settle *)



(** ** A restart whose stop fails *)

Lemma fold_record_others {X} (f : X -> effect) (l : list X) (s : task) :
  let s1 := fold_left (fun s x => record (f x) s) l s in
  app s1 = app s /\ require_cache s1 = require_cache s
  /\ startOptions s1 = startOptions s /\ nextSocketId s1 = nextSocketId s.
Proof.
  revert s. induction l as [|x l IH]; intros s; simpl; [done|].
  destruct (IH (record (f x) s)) as (H1 & H2 & H3 & H4).
  by rewrite H1, H2, H3, H4.
Qed.

(** [X14] [restartHttpServer] when the server cannot be closed: if the
    close callback reports an error, the cycle ends there, resolved, with
    the error written.  The sockets of the registry were destroyed, but
    nothing is purged and nothing is rebuilt: the task keeps the server,
    the application, the registry, the module cache and the options it
    had, and [serverRestartPromise] is null again, so the next restart
    begins in the same way. *)
Theorem restart_whose_stop_fails_changes_nothing
  (env : environment) (s : task) (server : nat) (e : error)
  (rest : list (option error)) :
  httpServer s = Some server ->
  4 <= length rest ->
  exists s' destroyed,
    run_alone (Some e :: rest) (restart_cycle env s) = Settled s' (Fulfilled tt)
    /\ trace s' = trace s ++ Close server :: map Destroy destroyed
                    ++ [Reply (ServerClose server) (Some e); UiWriteError e]
    /\ destroyed ≡ₚ (map_to_list (sockets s)).*2
    /\ httpServer s' = Some server
    /\ app s' = app s
    /\ sockets s' = sockets s
    /\ nextSocketId s' = nextSocketId s
    /\ require_cache s' = require_cache s
    /\ startOptions s' = startOptions s
    /\ serverRestartPromise s' = None.
Proof.
  intros Hsrv Hlen.
  destruct rest as [|r1 [|r2 [|r3 [|r4 rest]]]]; simpl in Hlen; try lia.
  unfold restart_cycle, restart_attempt, finally_, catch_, then_, stopHttpServer, await.
  rewrite Hsrv. simpl.
  destruct (fold_record_fields Destroy (map_to_list (sockets s)).*2
              (record (Close server) s)) as (Htr & Hso & Hht).
  destruct (fold_record_others Destroy (map_to_list (sockets s)).*2
              (record (Close server) s)) as (Hap & Hrc & Hop & Hns).
  simpl in Htr, Hso, Hht, Hap, Hrc, Hop, Hns.
  eexists _, (map_to_list (sockets s)).*2. split; [by destruct rest|].
  simpl. rewrite Htr, Hso, Hht, Hap, Hrc, Hop, Hns.
  repeat split; try done. by rewrite <- !app_assoc.
Qed.

Lemma restart_whose_stop_fails_changes_nothing_witness :
  let s := this (run (demo_env true) (demo_started ++ [Connection 70])
                   (boot (demo_env true) (demo_options false) None)) in
  exists s',
    run_alone (Some (ExternalError "Not running") :: repeat None 4)
      (restart_cycle (demo_env true) s) = Settled s' (Fulfilled tt)
    /\ httpServer s' = Some 1 /\ app s' = app s /\ sockets s' = sockets s.
Proof.
  intros s.
  assert (Hsrv : httpServer s = Some 1) by (vm_compute; reflexivity).
  destruct (restart_whose_stop_fails_changes_nothing (demo_env true) s 1
              (ExternalError "Not running") (repeat None 4) Hsrv)
    as (s' & destroyed & H1 & _ & _ & H2 & H3 & H4 & _).
  - simpl. lia.
  - exists s'. split; [exact H1|]. split; [exact H2|]. split; [exact H3 | exact H4].
Defined.
